(** * postfix.cpp: a push-down automaton for postfix arithmetic

    A shallow embedding of [src/postfix.cpp]: the tokenizer [next_tok], the
    control loop of [main] with its memory stack, the exceptions the two
    raise and the handlers that catch them.

    Characters are [wchar_t] code points, the input stream is the list of
    characters still to be read, [double] is the primitive binary64 float
    of the kernel, and the two globals [EndOfInput] and [IsOperator] are
    fields of the machine state that is passed along. *)

From Stdlib Require Import ZArith NArith List Bool String Ascii Lia Floats.
Import ListNotations.

Local Open Scope N_scope.

(** ** Characters and strings *)

Definition wchar_t := N.
Definition wstring := list wchar_t.

(** [L "..."] is the wide literal of an ASCII text. *)
Definition L (s : string) : wstring :=
  map N_of_ascii (list_ascii_of_string s).

(** Various markers and operators *)
Definition EOI : wchar_t := Eval cbv in N_of_ascii ";".
Definition ZERO : wchar_t := Eval cbv in N_of_ascii "0".
Definition MINUS : wchar_t := Eval cbv in N_of_ascii "-".
Definition PLUS : wchar_t := Eval cbv in N_of_ascii "+".
Definition MULT : wchar_t := Eval cbv in N_of_ascii "*".
Definition DIV : wchar_t := Eval cbv in N_of_ascii "/".
Definition RADIX_POINT : wchar_t := Eval cbv in N_of_ascii ".".

(** [wstring(1, c)] *)
Definition wstring1 (c : wchar_t) : wstring := [c].

Definition empty {A} (l : list A) : bool :=
  match l with [] => true | _ :: _ => false end.

Fixpoint wstring_eqb (a b : wstring) : bool :=
  match a, b with
  | [], [] => true
  | x :: a', y :: b' => (x =? y) && wstring_eqb a' b'
  | _, _ => false
  end.

(** ** Locale

    The facets of [is.getloc()] the program uses: the character classes
    [isspace] and [isdigit], and the extraction of a [double] from a fresh
    [wistringstream] holding a token ([ss >> n]), which reports the value
    stored in [n] and what [ss.good()] and [ss.eof()] answer afterwards. *)

Record extraction := {
  ex_value : float;
  ex_good : bool;
  ex_eof : bool
}.

Record locale := {
  isspace : wchar_t -> bool;
  isdigit : wchar_t -> bool;
  extract : wstring -> extraction
}.

(** ** Exceptions *)

Inductive exn :=
| InvalidExpression (expr : wstring)
| InvalidInput (expr : wstring)
| DivByZero (opd : float)
| runtime_error (what : string).

Inductive result (A : Type) :=
| Return (a : A)
| Throw (e : exn).
Arguments Return {A} a.
Arguments Throw {A} e.

(** ** The tokenizer *)

(** The locals of [next_tok] that live across iterations of its loop;
    [should_cont] and [got_eoi] only change on the iteration that leaves
    the loop and are part of [scan_end]. *)
Record scan_state := {
  str : wstring;
  got_radixpt : bool;
  is_valid_num : bool
}.

Definition scan_init : scan_state :=
  {| str := []; got_radixpt := false; is_valid_num := false |}.

(** What the loop leaves behind: the locals, whether the stream is at
    [eof()] (the last [get] found nothing), and the stream itself. *)
Record scan_end := {
  end_str : wstring;
  end_valid : bool;
  end_got_eoi : bool;
  end_eof : bool;
  end_is : list wchar_t
}.

Definition stop (s : wstring) (valid eoi : bool) (ist : list wchar_t) : scan_end :=
  {| end_str := s; end_valid := valid; end_got_eoi := eoi;
     end_eof := false; end_is := ist |}.

Section Tokenizer.

Variable loc : locale.

(** [while (should_cont && is.get(c)) switch (c) ...]: a [putback] leaves
    the stream as it was before the [get], [c] in front. *)
Fixpoint read_loop (st : scan_state) (ist : list wchar_t) : scan_end :=
  match ist with
  | [] =>
      {| end_str := str st; end_valid := is_valid_num st;
         end_got_eoi := false; end_eof := true; end_is := [] |}
  | c :: ist' =>
      if c =? EOI then
        stop (str st) (is_valid_num st) true ist'
      else if (c =? MINUS) || (c =? PLUS) then
        if negb (empty (str st)) then
          stop (str st) (is_valid_num st) false (c :: ist')
        else
          read_loop {| str := str st ++ [c];
                       got_radixpt := got_radixpt st;
                       is_valid_num := is_valid_num st |} ist'
      else if c =? RADIX_POINT then
        if got_radixpt st then
          stop (str st) (is_valid_num st) false (c :: ist')
        else
          let s := if empty (str st) then str st ++ [ZERO] else str st in
          read_loop {| str := s ++ [c];
                       got_radixpt := true;
                       is_valid_num := false |} ist'
      else if (c =? MULT) || (c =? DIV) then
        if negb (empty (str st)) then
          stop (str st) (is_valid_num st) false (c :: ist')
        else
          stop (str st ++ [c]) (is_valid_num st) false ist'
      else if isspace loc c then
        if empty (str st) then read_loop st ist'
        else stop (str st) (is_valid_num st) false (c :: ist')
      else if negb (isdigit loc c) then
        stop (str st ++ [c]) false false (c :: ist')
      else
        read_loop {| str := str st ++ [c];
                     got_radixpt := got_radixpt st;
                     is_valid_num := true |} ist'
  end.

Definition is_operator (s : wstring) : bool :=
  wstring_eqb s (wstring1 MINUS) || wstring_eqb s (wstring1 PLUS) ||
  wstring_eqb s (wstring1 MULT) || wstring_eqb s (wstring1 DIV).

(** The globals and [wcin]. *)
Record tok_state := {
  EndOfInput : bool;
  IsOperator : bool;
  wcin : list wchar_t
}.

(** [next_tok(wcin)]. A list is never in a failed state that is not the
    end of the stream, so the [ios_base::failure] of line 142 has no
    counterpart. The globals are assigned before the [throw]. *)
Definition next_tok_from (st : scan_state) (g : tok_state)
  : result wstring * tok_state :=
  let r := read_loop st (wcin g) in
  let isop := is_operator (end_str r) in
  let eoi := if end_eof r || end_got_eoi r then true else EndOfInput g in
  let g' := {| EndOfInput := eoi; IsOperator := isop; wcin := end_is r |} in
  if negb eoi && negb (end_valid r) && negb isop
  then (Throw (InvalidExpression (end_str r)), g')
  else (Return (end_str r), g').

Definition next_tok (g : tok_state) : result wstring * tok_state :=
  next_tok_from scan_init g.

End Tokenizer.

(** ** The classic locale

    The program never installs another locale, so [wcin.getloc()] is the
    classic one: white space is the six ASCII control and blank characters,
    digits are ['0'] to ['9'], the radix point is ['.']. *)

Definition classic_isspace (c : wchar_t) : bool :=
  (c =? 32) || ((9 <=? c) && (c <=? 13)).

Definition classic_isdigit (c : wchar_t) : bool :=
  (48 <=? c) && (c <=? 57).

(** [ss >> n] in the classic locale, for a stream that holds [s] and
    starts with [n = 0.0]. The extraction takes an optional sign, digits,
    at most one radix point and more digits; this is all a token of
    [next_tok] that is not an operator can contain, so the exponent and
    the grouping that [num_get] also knows are left out. The characters
    taken are handed to [strtod]: nothing convertible stores [0.0] and
    fails, an overflow stores the largest finite value and fails, anything
    else stores the nearest [double]. [eof()] holds when the extraction ran
    into the end of the text. *)

Fixpoint span_digits (s : wstring) : wstring * wstring :=
  match s with
  | c :: s' =>
      if classic_isdigit c
      then let (ds, r) := span_digits s' in (c :: ds, r)
      else ([], s)
  | [] => ([], [])
  end.

Definition digits_value (ds : wstring) : Z :=
  fold_left (fun acc c => (10 * acc + (Z.of_N c - 48))%Z) ds 0%Z.

(** The [double] nearest to [m / 10^k] (ties to even), for [m >= 0]: the
    quotient is taken with more than 64 significant bits and a sticky bit
    for the remainder, and rounded once. *)
Definition nearest_double (m : Z) (k : nat) : float :=
  let d := (10 ^ Z.of_nat k)%Z in
  let s := Z.max 0 (64 + Z.log2 d - Z.log2 m)%Z in
  let n := (m * 2 ^ s)%Z in
  let sticky := if (n mod d =? 0)%Z then 0%Z else 1%Z in
  SF2Prim (binary_normalize prec emax (2 * (n / d) + sticky) (- s - 1) false).

Definition DBL_MAX : float := Eval vm_compute in
  SF2Prim (binary_normalize prec emax (2 ^ 53 - 1) (1024 - 53) false).

Definition classic_extract (s : wstring) : extraction :=
  let '(neg, s1) :=
    match s with
    | c :: r => if c =? MINUS then (true, r)
                else if c =? PLUS then (false, r) else (false, s)
    | [] => (false, s)
    end in
  let '(ip, s2) := span_digits s1 in
  let '(fp, s3) :=
    match s2 with
    | c :: r => if c =? RADIX_POINT then span_digits r else ([], s2)
    | [] => ([], s2)
    end in
  let eof := empty s3 in
  let signed (x : float) := if neg then (- x)%float else x in
  if empty (ip ++ fp) then
    {| ex_value := 0%float; ex_good := false; ex_eof := eof |}
  else
    let v := nearest_double (digits_value (ip ++ fp)) (List.length fp) in
    if PrimFloat.eqb v infinity then
      {| ex_value := signed DBL_MAX; ex_good := false; ex_eof := eof |}
    else
      {| ex_value := signed v; ex_good := negb eof; ex_eof := eof |}.

Definition classic : locale :=
  {| isspace := classic_isspace;
     isdigit := classic_isdigit;
     extract := classic_extract |}.

(** ** The automaton *)

(** What goes to [wcout]: the lines of the verbose trace, the items that
    [print_stack] writes, and the result. *)
Inductive output :=
| SayNumber (n : float)
| SayOperator (tok : wstring)
| SayStackLabel
| SayItem (n : float)
| SayNewline
| SayEquation (n1 : float) (tok : wstring) (n2 res : float)
| SayResultLabel
| SayValue (n : float).

(** What goes to [wcerr] and [cerr]: the warning about a stack that is not
    empty, which ends in the label of a stack listing in verbose mode, and
    the line of the handler that caught an exception. *)
Inductive diagnostic :=
| Improper (stack_label : bool)
| Report (e : exn).

(** Prints the contents of the PDA stack: every item goes to [wcout]. *)
Fixpoint print_stack (si : list float) : list output :=
  match si with
  | [] => []
  | n :: si' => SayItem n :: print_stack si'
  end.

Record machine := {
  io : tok_state;
  mem : list float;
  wcout : list output;
  wcerr : list diagnostic
}.

Definition with_io (m : machine) (g : tok_state) : machine :=
  {| io := g; mem := mem m; wcout := wcout m; wcerr := wcerr m |}.

Definition with_mem (m : machine) (l : list float) : machine :=
  {| io := io m; mem := l; wcout := wcout m; wcerr := wcerr m |}.

Definition say (m : machine) (o : list output) : machine :=
  {| io := io m; mem := mem m; wcout := wcout m ++ o; wcerr := wcerr m |}.

Definition complain (m : machine) (d : diagnostic) : machine :=
  {| io := io m; mem := mem m; wcout := wcout m; wcerr := wcerr m ++ [d] |}.

(** [list<double>]: the top of the stack is the back of the list. *)
Definition push_back (l : list float) (n : float) : list float := l ++ [n].
Definition back (l : list float) : float := last l 0%float.
Definition pop_back (l : list float) : list float := removelast l.

Section Automaton.

Variable loc : locale.
Variable flag_verbose : bool.

Definition verbose (m : machine) (o : list output) : machine :=
  if flag_verbose then say m o else m.

(** Lines 182 to 190: a number is converted and pushed. *)
Definition on_number (tok : wstring) (m : machine) : result unit * machine :=
  let ss := extract loc tok in
  let n := ex_value ss in
  if negb (ex_good ss) && negb (ex_eof ss) then
    (Throw (runtime_error "Could not convert to number"), m)
  else
    let m := verbose m [SayNumber n] in
    (Return tt, with_mem m (push_back (mem m) n)).

(** Lines 193 to 228: an operator pops its two operands and pushes the
    result. *)
Definition on_operator (tok : wstring) (m : machine) : result unit * machine :=
  let m := verbose m (SayOperator tok :: SayStackLabel :: print_stack (mem m)) in
  if empty (mem m) then (Throw (InvalidInput []), m) else
  let n2 := back (mem m) in
  let m := with_mem m (pop_back (mem m)) in
  if empty (mem m) then (Throw (InvalidInput []), m) else
  let n1 := back (mem m) in
  let m := with_mem m (pop_back (mem m)) in
  if wstring_eqb tok (wstring1 DIV) && PrimFloat.eqb n2 0 then
    (Throw (DivByZero n1), verbose m [SayNewline])
  else
    let res := 0%float in
    let res := if wstring_eqb tok (wstring1 PLUS) then (n1 + n2)%float else res in
    let res := if wstring_eqb tok (wstring1 MINUS) then (n1 - n2)%float else res in
    let res := if wstring_eqb tok (wstring1 MULT) then (n1 * n2)%float else res in
    let res := if wstring_eqb tok (wstring1 DIV) then (n1 / n2)%float else res in
    let m := verbose m [SayEquation n1 tok n2 res] in
    let m := with_mem m (push_back (mem m) res) in
    let m := verbose m (SayStackLabel :: print_stack (mem m) ++ [SayNewline]) in
    (Return tt, m).

(** How the [try] block is left. *)
Inductive status :=
| Finished
| Raised (e : exn)
| Undefined
| OutOfFuel.

(** [while (!EndOfInput) ...], lines 178 to 231; every iteration takes one
    unit of fuel. *)
Fixpoint loop (fuel : nat) (m : machine) : status * machine :=
  if EndOfInput (io m) then (Finished, m) else
  match fuel with
  | O => (OutOfFuel, m)
  | S fuel' =>
      match next_tok loc (io m) with
      | (Throw e, g) => (Raised e, with_io m g)
      | (Return tok, g) =>
          let m := with_io m g in
          if negb (EndOfInput g) || negb (empty tok) then
            match (if negb (IsOperator g) then on_number tok m
                   else on_operator tok m) with
            | (Throw e, m) => (Raised e, m)
            | (Return _, m) => loop fuel' m
            end
          else loop fuel' m
      end
  end.

(** Lines 233 to 246: the result is printed and popped. [mem.back()] on an
    empty list has no defined behaviour. The warning goes to [wcerr]; the
    stack that follows it in verbose mode is written by [print_stack]. *)
Definition print_result (m : machine) : status * machine :=
  let m := verbose m [SayResultLabel] in
  if empty (mem m) then (Undefined, m) else
  let m := say m [SayValue (back (mem m))] in
  let m := with_mem m (pop_back (mem m)) in
  if negb (empty (mem m)) then
    let m := complain m (Improper flag_verbose) in
    (Finished, verbose m (print_stack (mem m)))
  else (Finished, m).

(** The [try] block and its handlers. *)
Definition try_block (fuel : nat) (m : machine) : status * machine :=
  match loop fuel m with
  | (Finished, m) => print_result m
  | (Raised e, m) => (Raised e, complain m (Report e))
  | other => other
  end.

Definition start (input : list wchar_t) : machine :=
  {| io := {| EndOfInput := false; IsOperator := false; wcin := input |};
     mem := []; wcout := []; wcerr := [] |}.

(** [main] on the characters of standard input. An iteration of the loop
    that does not end it takes at least one character, so the length of
    the input bounds the iterations (see [loop_enough_fuel] below). *)
Definition main (input : list wchar_t) : status * machine :=
  try_block (S (List.length input)) (start input).

End Automaton.

(** ** Vocabulary of the properties *)

(** The four assignments to [res] of lines 210 to 215. *)
Definition arith (tok : wstring) (n1 n2 : float) : float :=
  let res := 0%float in
  let res := if wstring_eqb tok (wstring1 PLUS) then (n1 + n2)%float else res in
  let res := if wstring_eqb tok (wstring1 MINUS) then (n1 - n2)%float else res in
  let res := if wstring_eqb tok (wstring1 MULT) then (n1 * n2)%float else res in
  if wstring_eqb tok (wstring1 DIV) then (n1 / n2)%float else res.

(** A character the tokenizer has no case for: not the terminator, a
    sign, the radix point, an operator, white space or a digit. *)
Definition unrecognized (loc : locale) (c : wchar_t) : bool :=
  negb (c =? EOI) && negb (c =? MINUS) && negb (c =? PLUS) &&
  negb (c =? RADIX_POINT) && negb (c =? MULT) && negb (c =? DIV) &&
  negb (isspace loc c) && negb (isdigit loc c).

(** A character that ends a lexeme without joining it: the terminator, a
    sign or an operator after some text, or white space. *)
Definition delimiter (loc : locale) (c : wchar_t) : bool :=
  (c =? EOI) || (c =? MINUS) || (c =? PLUS) || (c =? MULT) || (c =? DIV) ||
  (negb (c =? RADIX_POINT) && isspace loc c).

(** The stream stops the lexeme at once: it is at its end, or its next
    character is a delimiter. *)
Definition stops (loc : locale) (ist : list wchar_t) : bool :=
  match ist with
  | [] => true
  | c :: _ => delimiter loc c
  end.

(** The run ends in a warning with a listing of the stack, and [x] is in
    the listing. *)
Definition notes_leftover (m : machine) (x : float) : Prop :=
  In (Improper true) (wcerr m) /\
  exists before l, wcout m = before ++ print_stack l /\ In x l.

(** What a run shows when the trace of the verbose mode is taken away: of
    [wcout] the result, of the warning the message without the label. *)
Definition is_value (o : output) : bool :=
  match o with SayValue _ => true | _ => false end.

Definition hush (d : diagnostic) : diagnostic :=
  match d with
  | Improper _ => Improper false
  | Report e => Report e
  end.

Definition quiet (m : machine) : machine :=
  {| io := io m; mem := mem m;
     wcout := filter is_value (wcout m);
     wcerr := map hush (wcerr m) |}.

(** *** Postfix expressions as they are written *)

Definition SPACE : wchar_t := Eval cbv in N_of_ascii " ".

(** The characters that reach the digit and the white space branch of the
    tokenizer: the cases of the switch come first. *)
Definition plain (c : wchar_t) : bool :=
  negb (c =? EOI) && negb (c =? MINUS) && negb (c =? PLUS) &&
  negb (c =? RADIX_POINT) && negb (c =? MULT) && negb (c =? DIV).

Definition digit (loc : locale) (c : wchar_t) : bool :=
  plain c && negb (isspace loc c) && isdigit loc c.

Definition blank (loc : locale) (c : wchar_t) : bool :=
  plain c && isspace loc c.

(** A number: an optional sign, digits, and optionally a radix point with
    digits behind it. *)
Record numeral := {
  num_sign : option wchar_t;
  num_whole : wstring;
  num_fraction : option wstring
}.

Definition numeral_text (n : numeral) : wstring :=
  match num_sign n with Some c => [c] | None => [] end ++
  num_whole n ++
  match num_fraction n with Some f => RADIX_POINT :: f | None => [] end.

Definition well_formed_numeral (loc : locale) (n : numeral) : bool :=
  match num_sign n with
  | Some c => (c =? MINUS) || (c =? PLUS)
  | None => true
  end &&
  negb (empty (num_whole n)) && forallb (digit loc) (num_whole n) &&
  match num_fraction n with
  | Some f => negb (empty f) && forallb (digit loc) f
  | None => true
  end.

Inductive binop := Add | Sub | Mul | Div.

Definition binop_char (o : binop) : wchar_t :=
  match o with Add => PLUS | Sub => MINUS | Mul => MULT | Div => DIV end.

(** An arithmetic expression, and its postfix form with one space between
    lexemes. *)
Inductive expr :=
| Num (n : numeral)
| Bin (o : binop) (a b : expr).

Fixpoint postfix_text (e : expr) : wstring :=
  match e with
  | Num n => numeral_text n
  | Bin o a b =>
      postfix_text a ++ SPACE :: postfix_text b ++ SPACE :: [binop_char o]
  end.

Fixpoint well_formed (loc : locale) (e : expr) : bool :=
  match e with
  | Num n => well_formed_numeral loc n
  | Bin _ a b => well_formed loc a && well_formed loc b
  end.

(** The value of an expression in [double] arithmetic, with the numbers
    read by the locale; there is none when a number is not converted or a
    divisor compares equal to zero. *)
Definition numeral_value (loc : locale) (n : numeral) : option float :=
  let ss := extract loc (numeral_text n) in
  if ex_good ss || ex_eof ss then Some (ex_value ss) else None.

Fixpoint denote (loc : locale) (e : expr) : option float :=
  match e with
  | Num n => numeral_value loc n
  | Bin o a b =>
      match denote loc a, denote loc b with
      | Some x, Some y =>
          match o with
          | Add => Some (x + y)%float
          | Sub => Some (x - y)%float
          | Mul => Some (x * y)%float
          | Div => if PrimFloat.eqb y 0 then None else Some (x / y)%float
          end
      | _, _ => None
      end
  end.

(** What may follow a lexeme of the expression: the end of the stream, the
    terminator, or white space. *)
Definition ends_lexeme (loc : locale) (tl : list wchar_t) : bool :=
  match tl with
  | [] => true
  | c :: _ => (c =? EOI) || blank loc c
  end.

Definition continues (loc : locale) (tl : list wchar_t) : bool :=
  match tl with
  | [] => false
  | c :: _ => blank loc c
  end.

(** What may follow the whole expression: white space up to the
    terminator or up to the end of the stream. *)
Fixpoint closing (loc : locale) (tl : list wchar_t) : bool :=
  match tl with
  | [] => true
  | c :: tl' => (c =? EOI) || (blank loc c && closing loc tl')
  end.

(** How the loop of [next_tok] is left with the text [s] when [tl] ends
    the lexeme. *)
Definition finish_lexeme (s : wstring) (valid : bool) (tl : list wchar_t)
  : scan_end :=
  match tl with
  | [] => {| end_str := s; end_valid := valid; end_got_eoi := false;
             end_eof := true; end_is := [] |}
  | c :: tl' => if c =? EOI then stop s valid true tl'
                else stop s valid false tl
  end.

(** The expression [5 + (1 + 2) * 4 - 3], in postfix
    ["5 1 2 + 4 * + 3 -"]. *)
Definition natural (s : string) : expr :=
  Num {| num_sign := None; num_whole := L s; num_fraction := None |}.

Definition rpn_example : expr :=
  Bin Sub
      (Bin Add (natural "5")
           (Bin Mul (Bin Add (natural "1") (natural "2")) (natural "4")))
      (natural "3").

(** Where [next_tok] leaves the globals and the stream after a lexeme that
    [tl] follows: in front of [tl], or at the end of the input when [tl]
    is the terminator or the end of the stream. *)
Definition resumes_at (loc : locale) (g : tok_state) (tl : list wchar_t)
  : Prop :=
  (EndOfInput g = false /\ wcin g = tl) \/
  (EndOfInput g = true /\ continues loc tl = false).

(** A text that ends in a digit of the locale. *)
Definition ends_in_digit (loc : locale) (s : wstring) : Prop :=
  exists t d, s = t ++ [d] /\ isdigit loc d = true.

(** The exceptions that the statements of the program construct: the one
    of [next_tok] with the rejected text, [InvalidInput] without a text,
    [DivByZero], and the failed conversion. *)
Definition thrown_by_program (e : exn) : Prop :=
  (exists s, e = InvalidExpression s /\ s <> [] /\ is_operator s = false) \/
  e = InvalidInput [] \/
  (exists x, e = DivByZero x) \/
  e = runtime_error "Could not convert to number".

(** *** The handlers of [main]

    What a handler writes for the exception it catches, piece by piece as
    the [<<] of lines 248 to 264 have it. [expression()] hands out a C
    string, which ends at the first null character. *)
Inductive piece :=
| Narrow (s : string)
| Wide (s : wstring)
| Double (n : float)
| Endl.

Fixpoint c_str (s : wstring) : wstring :=
  match s with
  | [] => []
  | c :: s' => if c =? 0 then [] else c :: c_str s'
  end.

Definition wcslen (s : wstring) : nat := List.length (c_str s).

Definition handler (e : exn) : list piece :=
  match e with
  | InvalidExpression expr =>
      [Narrow "Invalid expression: "; Wide (c_str expr); Endl]
  | InvalidInput expr =>
      Narrow "Invalid input" ::
      (if Nat.ltb 0 (wcslen expr) then [Narrow ": "; Wide (c_str expr)]
       else []) ++ [Endl]
  | DivByZero opd =>
      [Narrow "Division by zero: "; Double opd; Narrow " / 0"; Endl]
  | runtime_error what => [Narrow what; Endl]
  end.

(** *** Numbers of the classic locale *)

(** The part of a text that the classic extraction does not take:
    [ex_eof] holds when there is none. *)
Definition unread (s : wstring) : wstring :=
  let s1 :=
    match s with
    | c :: r => if c =? MINUS then r else if c =? PLUS then r else s
    | [] => s
    end in
  let s2 := snd (span_digits s1) in
  match s2 with
  | c :: r => if c =? RADIX_POINT then snd (span_digits r) else s2
  | [] => s2
  end.

(** The texts that the tokenizer builds from signs, digits and radix
    points: a sign or none, digits, and when a radix point has been seen
    the point and more digits. *)
Definition numeric (s : wstring) (radixpt : bool) : Prop :=
  exists sg ds fs,
    (sg = [] \/ sg = [MINUS] \/ sg = [PLUS]) /\
    forallb classic_isdigit ds = true /\
    forallb classic_isdigit fs = true /\
    s = sg ++ ds ++ (if radixpt then RADIX_POINT :: fs else []).

(** *** Streams that differ behind the terminator *)

Definition same_until_terminator (a b : list wchar_t) : Prop :=
  exists w r1 r2, a = w ++ EOI :: r1 /\ b = w ++ EOI :: r2.

(** The globals agree, and the streams do as far as they will be read. *)
Definition alike (g1 g2 : tok_state) : Prop :=
  EndOfInput g1 = EndOfInput g2 /\
  IsOperator g1 = IsOperator g2 /\
  (EndOfInput g1 = true \/ same_until_terminator (wcin g1) (wcin g2)).

(** *** The value of a written expression

    A numeral stands for the decimal fraction that its digits spell: the
    integer [decimal] of all its digits over ten to the number of digits
    behind the radix point, negative under a minus sign. As a [double] it
    is the nearest one, which [nearest_double] rounds to; a numeral beyond
    the range of [double] has no value here. *)

Definition digit_value (c : wchar_t) : Z := (Z.of_N c - 48)%Z.

Fixpoint decimal (ds : wstring) : Z :=
  match ds with
  | [] => 0%Z
  | d :: ds' =>
      (digit_value d * 10 ^ Z.of_nat (List.length ds') + decimal ds')%Z
  end.

Definition numeral_digits_behind (n : numeral) : wstring :=
  match num_fraction n with Some f => f | None => [] end.

Definition numeral_negative (n : numeral) : bool :=
  match num_sign n with Some c => c =? MINUS | None => false end.

Definition numeral_magnitude (n : numeral) : float :=
  nearest_double (decimal (num_whole n ++ numeral_digits_behind n))
                 (List.length (numeral_digits_behind n)).

Definition numeral_finite (n : numeral) : bool :=
  negb (PrimFloat.eqb (numeral_magnitude n) infinity).

Definition numeral_double (n : numeral) : float :=
  if numeral_negative n then (- numeral_magnitude n)%float
  else numeral_magnitude n.

(** The value of an expression: its numerals as above, its operators in
    [double] arithmetic, none for a division by what compares equal to
    zero. *)
Fixpoint value (e : expr) : option float :=
  match e with
  | Num n => if numeral_finite n then Some (numeral_double n) else None
  | Bin o a b =>
      match value a, value b with
      | Some x, Some y =>
          match o with
          | Add => Some (x + y)%float
          | Sub => Some (x - y)%float
          | Mul => Some (x * y)%float
          | Div => if PrimFloat.eqb y 0 then None else Some (x / y)%float
          end
      | _, _ => None
      end
  end.

(** An expression written in postfix form: the operands, then the
    operator, any white space between two lexemes, and at least some. *)
Inductive written (loc : locale) : expr -> wstring -> Prop :=
| written_num (n : numeral) :
    well_formed_numeral loc n = true ->
    written loc (Num n) (numeral_text n)
| written_bin (o : binop) (a b : expr) (ta tb ws1 ws2 : wstring) :
    written loc a ta ->
    written loc b tb ->
    ws1 <> [] -> forallb (blank loc) ws1 = true ->
    ws2 <> [] -> forallb (blank loc) ws2 = true ->
    written loc (Bin o a b) (ta ++ ws1 ++ tb ++ ws2 ++ [binop_char o]).

(** [1.5 + 2.5], to be written with a tab and spaces. *)
Definition one_and_a_half : numeral :=
  {| num_sign := None; num_whole := L "1"; num_fraction := Some (L "5") |}.

Definition two_and_a_half : numeral :=
  {| num_sign := None; num_whole := L "2"; num_fraction := Some (L "5") |}.

Definition sum_example : expr :=
  Bin Add (Num one_and_a_half) (Num two_and_a_half).

Definition sum_example_text : wstring :=
  numeral_text one_and_a_half ++ [9; 32] ++
  numeral_text two_and_a_half ++ [32; 32] ++ [binop_char Add].

(** [10^400 / 10^399]: both numerals are beyond the range of [double]. *)
Definition power_of_ten (k : nat) : numeral :=
  {| num_sign := None; num_whole := L "1" ++ repeat ZERO k;
     num_fraction := None |}.

Definition beyond_range : expr :=
  Bin Div (Num (power_of_ten 400)) (Num (power_of_ten 399)).

(** * Properties *)

(** ** The memory stack *)

Lemma back_push_back (l : list float) (n : float) : back (push_back l n) = n.
Proof. apply last_last. Qed.

Lemma pop_back_push_back (l : list float) (n : float) :
  pop_back (push_back l n) = l.
Proof. apply removelast_last. Qed.

Lemma empty_push_back (l : list float) (n : float) :
  empty (push_back l n) = false.
Proof. destruct l; reflexivity. Qed.

Lemma two_on_top (s : list float) (n1 n2 : float) :
  s ++ [n1; n2] = push_back (push_back s n1) n2.
Proof. unfold push_back. now rewrite <- app_assoc. Qed.

Lemma mem_verbose (v : bool) (m : machine) (o : list output) :
  mem (verbose v m o) = mem m.
Proof. now destruct v. Qed.

Lemma io_verbose (v : bool) (m : machine) (o : list output) :
  io (verbose v m o) = io m.
Proof. now destruct v. Qed.

Lemma wcerr_verbose (v : bool) (m : machine) (o : list output) :
  wcerr (verbose v m o) = wcerr m.
Proof. now destruct v. Qed.

Section OperatorSteps.

Variable v : bool.

Lemma on_operator_empty (tok : wstring) (m : machine) :
  mem m = [] ->
  on_operator v tok m
  = (Throw (InvalidInput []),
     verbose v m (SayOperator tok :: SayStackLabel :: print_stack [])).
Proof.
  intros E. unfold on_operator. rewrite mem_verbose, E. reflexivity.
Qed.

Lemma on_operator_single (tok : wstring) (m : machine) (n : float) :
  mem m = [n] ->
  on_operator v tok m
  = (Throw (InvalidInput []),
     with_mem
       (verbose v m (SayOperator tok :: SayStackLabel :: print_stack [n]))
       []).
Proof.
  intros E. unfold on_operator. rewrite mem_verbose, E. reflexivity.
Qed.

Lemma on_operator_pair (tok : wstring) (m : machine) (s : list float)
      (n1 n2 : float) :
  mem m = s ++ [n1; n2] ->
  let m1 :=
    with_mem
      (verbose v m (SayOperator tok :: SayStackLabel :: print_stack (mem m)))
      s in
  on_operator v tok m
  = if wstring_eqb tok (wstring1 DIV) && PrimFloat.eqb n2 0
    then (Throw (DivByZero n1), verbose v m1 [SayNewline])
    else
      let res := arith tok n1 n2 in
      let m2 := verbose v m1 [SayEquation n1 tok n2 res] in
      let m3 := with_mem m2 (push_back s res) in
      (Return tt,
       verbose v m3
         (SayStackLabel :: print_stack (push_back s res) ++ [SayNewline])).
Proof.
  intros E m1. unfold on_operator.
  rewrite mem_verbose, E, two_on_top.
  rewrite empty_push_back, back_push_back.
  cbn [mem with_mem].
  rewrite pop_back_push_back, empty_push_back, back_push_back.
  rewrite pop_back_push_back.
  subst m1. rewrite E, two_on_top.
  destruct (wstring_eqb tok (wstring1 DIV) && PrimFloat.eqb n2 0);
    [reflexivity|].
  cbn zeta. rewrite mem_verbose. reflexivity.
Qed.

End OperatorSteps.

(** ** The tokenizer *)

Lemma wstring_eqb_eq (a b : wstring) : wstring_eqb a b = true <-> a = b.
Proof.
  revert b. induction a as [|x a IH]; intros [|y b]; cbn; try easy.
  rewrite andb_true_iff, N.eqb_eq, IH. split.
  - now intros [-> ->].
  - intros E. now inversion E.
Qed.

Lemma wstring_eqb_snoc (s : wstring) (c x : wchar_t) :
  c <> x -> wstring_eqb (s ++ [c]) (wstring1 x) = false.
Proof.
  intros N. apply not_true_is_false. rewrite wstring_eqb_eq.
  destruct s as [|a [|b s]]; cbn; unfold wstring1; congruence.
Qed.

(** A text that ends in a character other than the four operators is not
    an operator. *)
Lemma is_operator_snoc (s : wstring) (c : wchar_t) :
  c <> MINUS -> c <> PLUS -> c <> MULT -> c <> DIV ->
  is_operator (s ++ [c]) = false.
Proof.
  intros. unfold is_operator. now rewrite !wstring_eqb_snoc.
Qed.

Lemma unrecognized_spec (loc : locale) (c : wchar_t) :
  unrecognized loc c = true ->
  (c =? EOI) = false /\ (c =? MINUS) = false /\ (c =? PLUS) = false /\
  (c =? RADIX_POINT) = false /\ (c =? MULT) = false /\ (c =? DIV) = false /\
  isspace loc c = false /\ isdigit loc c = false.
Proof.
  unfold unrecognized. rewrite !andb_true_iff, !negb_true_iff. tauto.
Qed.

(** The loop meets a character it has no case for: the character is
    appended and put back, and the loop is left with an invalid number. *)
Lemma read_loop_unrecognized (loc : locale) (st : scan_state) (c : wchar_t)
      (rest : list wchar_t) :
  unrecognized loc c = true ->
  read_loop loc st (c :: rest) = stop (str st ++ [c]) false false (c :: rest).
Proof.
  intros U. apply unrecognized_spec in U.
  destruct U as (E1 & E2 & E3 & E4 & E5 & E6 & E7 & E8).
  cbn [read_loop]. now rewrite E1, E2, E3, E4, E5, E6, E7, E8.
Qed.

(** A sign that is alone in the lexeme stays alone when the stream stops
    the lexeme at once. *)
Lemma read_loop_lone_sign (loc : locale) (c : wchar_t) (rp vn : bool)
      (rest : list wchar_t) :
  stops loc rest = true ->
  end_str (read_loop loc {| str := [c]; got_radixpt := rp;
                             is_valid_num := vn |} rest) = [c].
Proof.
  destruct rest as [|d rest]; [reflexivity|].
  unfold stops, delimiter. cbn [read_loop str empty negb].
  destruct (N.eqb_spec d RADIX_POINT) as [->|_]; [discriminate|].
  destruct (d =? EOI), (d =? MINUS), (d =? PLUS), (d =? MULT), (d =? DIV),
    (isspace loc d);
    cbn; intros D; try reflexivity; discriminate D.
Qed.

(** C6: a [+] or [-] joins the lexeme only as its first character; after
    any accumulated text it is put back and ends the lexeme; and a sign
    directly followed by the end of the stream or by a delimiter is
    returned as an operator, not rejected as a malformed number (so does
    ["-;"]). *)
Theorem C6_sign_only_first_else_operator :
  forall (loc : locale) (c : wchar_t), c = MINUS \/ c = PLUS ->
    (forall rp vn rest,
        read_loop loc {| str := []; got_radixpt := rp; is_valid_num := vn |}
                  (c :: rest)
        = read_loop loc {| str := [c]; got_radixpt := rp;
                           is_valid_num := vn |} rest) /\
    (forall st rest, str st <> [] ->
        read_loop loc st (c :: rest)
        = stop (str st) (is_valid_num st) false (c :: rest)) /\
    (forall eoi isop rest, stops loc rest = true ->
        exists g',
          next_tok loc {| EndOfInput := eoi; IsOperator := isop;
                          wcin := c :: rest |}
          = (Return (wstring1 c), g') /\ IsOperator g' = true) /\
    next_tok classic {| EndOfInput := false; IsOperator := false;
                        wcin := L "-;" |}
    = (Return (L "-"),
       {| EndOfInput := true; IsOperator := true; wcin := [] |}).
Proof.
  intros loc c Hc.
  assert (Hop : is_operator [c] = true) by (destruct Hc; subst; reflexivity).
  assert (Hfirst : forall rp vn rest,
             read_loop loc {| str := []; got_radixpt := rp;
                              is_valid_num := vn |} (c :: rest)
             = read_loop loc {| str := [c]; got_radixpt := rp;
                                is_valid_num := vn |} rest)
    by (intros; destruct Hc; subst; reflexivity).
  split; [|split; [|split]].
  - exact Hfirst.
  - intros st rest Hne. cbn [read_loop].
    destruct (str st) as [|x s] eqn:E; [easy|].
    destruct Hc; subst; reflexivity.
  - intros eoi isop rest Hstop.
    unfold next_tok, next_tok_from, scan_init. cbn [wcin EndOfInput].
    rewrite Hfirst, (read_loop_lone_sign _ _ _ _ _ Hstop), Hop.
    rewrite andb_false_r. eexists. split; reflexivity.
  - reflexivity.
Qed.

(** C7: a radix point met with nothing accumulated and no radix point seen
    puts a zero digit in front of itself, so [".5"] is returned as the
    number ["0.5"], which converts to 0.5; a second radix point is put back
    and ends the lexeme. *)
Theorem C7_radix_point_leading_zero :
  forall loc : locale,
    (forall vn rest,
        read_loop loc {| str := []; got_radixpt := false;
                         is_valid_num := vn |} (RADIX_POINT :: rest)
        = read_loop loc {| str := [ZERO; RADIX_POINT]; got_radixpt := true;
                           is_valid_num := false |} rest) /\
    (forall s vn rest,
        read_loop loc {| str := s; got_radixpt := true;
                         is_valid_num := vn |} (RADIX_POINT :: rest)
        = stop s vn false (RADIX_POINT :: rest)) /\
    next_tok classic {| EndOfInput := false; IsOperator := false;
                        wcin := L ".5" |}
    = (Return (L "0.5"),
       {| EndOfInput := true; IsOperator := false; wcin := [] |}) /\
    ex_value (extract classic (L "0.5")) = 0.5%float /\
    next_tok classic {| EndOfInput := false; IsOperator := false;
                        wcin := L "1.5.3" |}
    = (Return (L "1.5"),
       {| EndOfInput := false; IsOperator := false; wcin := L ".3" |}).
Proof.
  intros loc. split; [|split; [|split; [|split]]]; reflexivity.
Qed.

(** C8: when the tokenizer meets a character it has no case for, whatever
    it has accumulated, it appends the character, puts it back and throws
    [InvalidExpression] with the accumulated text; ["3 4 @ +;"] ends in
    that exception, with ["@"] as the text. *)
Theorem C8_unrecognized_character_is_invalid_expression :
  (forall (loc : locale) (st : scan_state) (isop : bool) (c : wchar_t)
          (rest : list wchar_t),
      unrecognized loc c = true ->
      next_tok_from loc st {| EndOfInput := false; IsOperator := isop;
                              wcin := c :: rest |}
      = (Throw (InvalidExpression (str st ++ [c])),
         {| EndOfInput := false; IsOperator := false; wcin := c :: rest |})) /\
  (forall v : bool,
      let r := main classic v (L "3 4 @ +;") in
      fst r = Raised (InvalidExpression (L "@")) /\
      wcerr (snd r) = [Report (InvalidExpression (L "@"))] /\
      wcin (io (snd r)) = L "@ +;").
Proof.
  split.
  - intros loc st isop c rest U.
    unfold next_tok_from. cbn [wcin EndOfInput].
    rewrite (read_loop_unrecognized _ _ _ _ U).
    apply unrecognized_spec in U.
    destruct U as (_ & E2 & E3 & _ & E5 & E6 & _ & _).
    apply N.eqb_neq in E2, E3, E5, E6.
    cbn [stop end_str end_valid end_got_eoi end_eof end_is orb negb andb].
    now rewrite is_operator_snoc.
  - intros [|]; vm_compute; repeat split.
Qed.

Lemma C8_witness :
  unrecognized classic 64 = true /\
  next_tok_from classic scan_init
    {| EndOfInput := false; IsOperator := false; wcin := L "@ +;" |}
  = (Throw (InvalidExpression (L "@")),
     {| EndOfInput := false; IsOperator := false; wcin := L "@ +;" |}).
Proof.
  split; [reflexivity|].
  apply (proj1 C8_unrecognized_character_is_invalid_expression
               classic scan_init false 64 (L " +;")).
  reflexivity.
Defined.

Lemma C6_witness :
  (MINUS = MINUS \/ MINUS = PLUS) /\
  stops classic (L " 2") = true /\
  exists g',
    next_tok classic {| EndOfInput := false; IsOperator := false;
                        wcin := MINUS :: L " 2" |}
    = (Return (wstring1 MINUS), g') /\ IsOperator g' = true.
Proof.
  split; [left; reflexivity|]. split; [reflexivity|].
  apply (proj1 (proj2 (proj2
           (C6_sign_only_first_else_operator classic MINUS
              (or_introl eq_refl))))).
  reflexivity.
Defined.

(** ** One iteration of the control loop *)

Lemma next_tok_from_IsOperator (loc : locale) (st : scan_state)
      (g g' : tok_state) (tok : wstring) :
  next_tok_from loc st g = (Return tok, g') -> IsOperator g' = is_operator tok.
Proof.
  unfold next_tok_from.
  destruct (_ && _); intros E; inversion E; reflexivity.
Qed.

Lemma is_operator_not_empty (tok : wstring) :
  is_operator tok = true -> empty tok = false.
Proof. now destruct tok. Qed.

(** An iteration that reads an operator is [on_operator]. *)
Lemma loop_on_operator (loc : locale) (v : bool) (fuel : nat) (m : machine)
      (tok : wstring) (g : tok_state) :
  EndOfInput (io m) = false ->
  next_tok loc (io m) = (Return tok, g) ->
  is_operator tok = true ->
  loop loc v (S fuel) m
  = match on_operator v tok (with_io m g) with
    | (Throw e, m') => (Raised e, m')
    | (Return _, m') => loop loc v fuel m'
    end.
Proof.
  intros E T O. cbn [loop]. rewrite E, T.
  rewrite (next_tok_from_IsOperator _ _ _ _ _ T), O.
  rewrite (is_operator_not_empty _ O), orb_true_r. reflexivity.
Qed.

(** C2: a division whose right operand, the one popped first, compares
    equal to [0.0] throws [DivByZero] with the left operand as payload: in
    [on_operator], and so in the run of the program, whose handler reports
    it; ["1 0 /;"] ends in [DivByZero] of 1. *)
Theorem C2_division_by_zero_carries_dividend :
  (forall (v : bool) (m : machine) (s : list float) (n1 n2 : float),
      mem m = s ++ [n1; n2] ->
      PrimFloat.eqb n2 0 = true ->
      fst (on_operator v (wstring1 DIV) m) = Throw (DivByZero n1)) /\
  (forall (loc : locale) (v : bool) (fuel : nat) (m : machine)
          (g : tok_state) (s : list float) (n1 n2 : float),
      EndOfInput (io m) = false ->
      next_tok loc (io m) = (Return (wstring1 DIV), g) ->
      mem m = s ++ [n1; n2] ->
      PrimFloat.eqb n2 0 = true ->
      let r := try_block loc v (S fuel) m in
      fst r = Raised (DivByZero n1) /\
      wcerr (snd r) = wcerr m ++ [Report (DivByZero n1)]) /\
  (forall v : bool,
      let r := main classic v (L "1 0 /;") in
      fst r = Raised (DivByZero 1) /\
      wcerr (snd r) = [Report (DivByZero 1)]).
Proof.
  split; [|split].
  - intros v m s n1 n2 E Z.
    rewrite (on_operator_pair v _ m s n1 n2 E). cbn zeta.
    rewrite Z. reflexivity.
  - intros loc v fuel m g s n1 n2 E T M Z. unfold try_block.
    rewrite (loop_on_operator _ _ _ _ _ _ E T eq_refl).
    rewrite (on_operator_pair v _ (with_io m g) s n1 n2 M). cbn zeta.
    rewrite Z. cbn [andb wstring_eqb wstring1 N.eqb DIV Pos.eqb fst snd].
    split; [reflexivity|].
    cbn [complain wcerr]. rewrite wcerr_verbose. cbn [with_mem wcerr].
    rewrite wcerr_verbose. reflexivity.
  - intros [|]; vm_compute; split; reflexivity.
Qed.

Lemma C2_witness :
  let m := with_mem
             (with_io (start [])
                {| EndOfInput := false; IsOperator := false;
                   wcin := L " /;" |}) [1; 0]%float in
  fst (try_block classic false 1 m) = Raised (DivByZero 1) /\
  wcerr (snd (try_block classic false 1 m)) = [Report (DivByZero 1)].
Proof.
  intros m.
  apply (proj1 (proj2 C2_division_by_zero_carries_dividend)
           classic false 0%nat m
           {| EndOfInput := false; IsOperator := true; wcin := L ";" |}
           [] 1%float 0%float); reflexivity.
Defined.

(** C3: an operator pops the top of the stack as [n2] and the value below
    it as [n1]; on an empty stack the first pop, on a stack of one value
    the second pop throws [InvalidInput]; with two values it pushes
    [n1 op n2] unless it is a division by zero. ["+;"] ends in
    [InvalidInput]. *)
Theorem C3_operator_pops_twice_or_invalid_input :
  (forall (v : bool) (tok : wstring) (m : machine),
      mem m = [] ->
      fst (on_operator v tok m) = Throw (InvalidInput [])) /\
  (forall (v : bool) (tok : wstring) (m : machine) (n : float),
      mem m = [n] ->
      fst (on_operator v tok m) = Throw (InvalidInput [])) /\
  (forall (v : bool) (tok : wstring) (m : machine) (s : list float)
          (n1 n2 : float),
      mem m = s ++ [n1; n2] ->
      let r := on_operator v tok m in
      (fst r = Throw (DivByZero n1) /\ mem (snd r) = s) \/
      (fst r = Return tt /\ mem (snd r) = s ++ [arith tok n1 n2])) /\
  (forall (loc : locale) (v : bool) (fuel : nat) (m : machine)
          (tok : wstring) (g : tok_state),
      EndOfInput (io m) = false ->
      next_tok loc (io m) = (Return tok, g) ->
      is_operator tok = true ->
      Nat.ltb (List.length (mem m)) 2 = true ->
      let r := try_block loc v (S fuel) m in
      fst r = Raised (InvalidInput []) /\
      wcerr (snd r) = wcerr m ++ [Report (InvalidInput [])]) /\
  (forall v : bool,
      let r := main classic v (L "+;") in
      fst r = Raised (InvalidInput []) /\
      wcerr (snd r) = [Report (InvalidInput [])]).
Proof.
  split; [|split; [|split; [|split]]].
  - intros v tok m E. now rewrite on_operator_empty.
  - intros v tok m n E. now rewrite (on_operator_single v tok m n).
  - intros v tok m s n1 n2 E r. subst r.
    rewrite (on_operator_pair v tok m s n1 n2 E). cbn zeta.
    destruct (_ && _); [left|right]; cbn [fst snd];
      rewrite !mem_verbose; split; reflexivity.
  - intros loc v fuel m tok g E T O Hl. unfold try_block.
    rewrite (loop_on_operator _ _ _ _ _ _ E T O).
    destruct (mem m) as [|n [|n' l]] eqn:M; [| |discriminate Hl].
    + rewrite on_operator_empty by exact M.
      cbn [fst snd complain wcerr]. now rewrite wcerr_verbose.
    + rewrite (on_operator_single v tok _ n) by exact M.
      cbn [fst snd complain wcerr with_mem]. now rewrite wcerr_verbose.
  - intros [|]; vm_compute; split; reflexivity.
Qed.

Lemma C3_witness :
  let m := with_io (start [])
             {| EndOfInput := false; IsOperator := false; wcin := L "+;" |} in
  fst (try_block classic false 1 m) = Raised (InvalidInput []) /\
  wcerr (snd (try_block classic false 1 m)) = [Report (InvalidInput [])].
Proof.
  intros m.
  apply (proj1 (proj2 (proj2 (proj2 C3_operator_pops_twice_or_invalid_input)))
           classic false 0%nat m (L "+")
           {| EndOfInput := true; IsOperator := true; wcin := [] |});
    reflexivity.
Defined.

(** C10: an operator that finds exactly one value on the stack pops it
    before the second emptiness test throws [InvalidInput], so the stack
    is empty, not restored, when the exception leaves the loop. *)
Theorem C10_underflow_leaves_stack_popped :
  (forall (v : bool) (tok : wstring) (m : machine) (n : float),
      mem m = [n] ->
      let r := on_operator v tok m in
      fst r = Throw (InvalidInput []) /\ mem (snd r) = []) /\
  (forall (loc : locale) (v : bool) (fuel : nat) (m : machine)
          (tok : wstring) (g : tok_state) (n : float),
      EndOfInput (io m) = false ->
      next_tok loc (io m) = (Return tok, g) ->
      is_operator tok = true ->
      mem m = [n] ->
      let r := loop loc v (S fuel) m in
      fst r = Raised (InvalidInput []) /\ mem (snd r) = []) /\
  (forall v : bool,
      let r := main classic v (L "7 +;") in
      fst r = Raised (InvalidInput []) /\ mem (snd r) = []).
Proof.
  split; [|split].
  - intros v tok m n E r. subst r.
    rewrite (on_operator_single v tok m n E). split; reflexivity.
  - intros loc v fuel m tok g n E T O M r. subst r.
    rewrite (loop_on_operator _ _ _ _ _ _ E T O).
    rewrite (on_operator_single v tok _ n) by exact M.
    split; reflexivity.
  - intros [|]; vm_compute; split; reflexivity.
Qed.

Lemma C10_witness :
  let m := with_mem
             (with_io (start [])
                {| EndOfInput := false; IsOperator := false;
                   wcin := L " +;" |}) [7%float] in
  fst (loop classic false 1 m) = Raised (InvalidInput []) /\
  mem (snd (loop classic false 1 m)) = [].
Proof.
  intros m.
  apply (proj1 (proj2 C10_underflow_leaves_stack_popped)
           classic false 0%nat m (L "+")
           {| EndOfInput := true; IsOperator := true; wcin := [] |} 7%float);
    reflexivity.
Defined.

(** ** After the loop *)

(** The result is printed from a stack of at least two values: the top is
    written to [wcout], the rest stays on the stack and the warning goes
    to [wcerr]; the stack is listed only in verbose mode. *)
Lemma print_result_leftover (v : bool) (m : machine) (s : list float)
      (a x : float) :
  mem m = s ++ [a; x] ->
  print_result v m
  = (Finished,
     verbose v
       (complain
          (with_mem (say (verbose v m [SayResultLabel]) [SayValue x])
             (s ++ [a]))
          (Improper v))
       (print_stack (s ++ [a]))).
Proof.
  intros E. unfold print_result.
  rewrite mem_verbose, E, two_on_top, empty_push_back.
  cbn [say mem]. rewrite mem_verbose, E, two_on_top.
  rewrite back_push_back, pop_back_push_back.
  cbn [with_mem mem]. rewrite empty_push_back. reflexivity.
Qed.

(** C4, as the program has it: when values are left on the stack after the
    final pop, the run still ends normally with the top of the stack
    printed as the answer, and a warning on [wcerr]; the values left are
    listed only in verbose mode. ["3 4 5 +;"] prints 9, leaves 3 on the
    stack and warns, and lists the 3 when verbose. *)
Theorem C4_leftover_stack_is_a_warning :
  (forall (loc : locale) (v : bool) (fuel : nat) (m0 m : machine)
          (s : list float) (a x : float),
      loop loc v fuel m0 = (Finished, m) ->
      mem m = s ++ [a; x] ->
      let r := try_block loc v fuel m0 in
      fst r = Finished /\
      wcout (snd r)
      = wcout (verbose v m [SayResultLabel]) ++
        SayValue x :: (if v then print_stack (s ++ [a]) else []) /\
      mem (snd r) = s ++ [a] /\
      wcerr (snd r) = wcerr m ++ [Improper v]) /\
  (forall v : bool,
      let r := main classic v (L "3 4 5 +;") in
      fst r = Finished /\
      filter is_value (wcout (snd r)) = [SayValue 9] /\
      mem (snd r) = [3%float] /\
      wcerr (snd r) = [Improper v]) /\
  notes_leftover (snd (main classic true (L "3 4 5 +;"))) 3.
Proof.
  split; [|split].
  - intros loc v fuel m0 m s a x Hl E r. subst r. unfold try_block.
    rewrite Hl, (print_result_leftover v m s a x E).
    destruct v; cbn [fst snd verbose complain say with_mem wcout mem wcerr];
      rewrite <- ?app_assoc; repeat split.
  - intros [|]; vm_compute; repeat split.
  - unfold notes_leftover.
    set (m := snd (main classic true (L "3 4 5 +;"))).
    vm_compute in m. subst m. cbn [wcerr wcout].
    split; [now left|].
    eexists _, [3%float]. split; [|now left].
    cbn [print_stack].
    change [SayNumber 3; SayNumber 4; SayNumber 5; SayOperator [43];
            SayStackLabel; SayItem 3; SayItem 4; SayItem 5;
            SayEquation 4 [43] 5 9; SayStackLabel; SayItem 3; SayItem 9;
            SayNewline; SayResultLabel; SayValue 9; SayItem 3]
      with ([SayNumber 3; SayNumber 4; SayNumber 5; SayOperator [43];
             SayStackLabel; SayItem 3; SayItem 4; SayItem 5;
             SayEquation 4 [43] 5 9; SayStackLabel; SayItem 3; SayItem 9;
             SayNewline; SayResultLabel; SayValue 9] ++ [SayItem 3%float]).
    reflexivity.
Qed.

Lemma C4_witness :
  let r := try_block classic false 5 (start (L "3 4 5 +;")) in
  fst r = Finished /\
  wcout (snd r) = [SayValue 9] /\
  mem (snd r) = [3%float] /\
  wcerr (snd r) = [Improper false].
Proof.
  apply (proj1 C4_leftover_stack_is_a_warning classic false 5%nat
           (start (L "3 4 5 +;"))
           (with_mem
              (with_io (start [])
                 {| EndOfInput := true; IsOperator := true; wcin := [] |})
              [3; 9]%float)
           [] 3%float 9%float); reflexivity.
Defined.

(** C4 as the claim words it fails without the verbose flag: the warning
    for ["3 4 5 +;"] comes without a listing, nothing names the 3 that is
    left. *)
Lemma C4_counterexample :
  ~ notes_leftover (snd (main classic false (L "3 4 5 +;"))) 3.
Proof.
  unfold notes_leftover.
  set (m := snd (main classic false (L "3 4 5 +;"))).
  vm_compute in m. subst m. cbn [wcerr].
  intros [[H|[]] _]. discriminate H.
Qed.

(** ** The loop ends *)

Section Progress.

Variable loc : locale.

(** The loop of [next_tok] never leaves more on the stream than it found. *)
Lemma read_loop_length (ist : list wchar_t) :
  forall st, (List.length (end_is (read_loop loc st ist)) <= List.length ist)%nat.
Proof.
  induction ist as [|c ist IH]; intros st; cbn [read_loop]; [apply Nat.le_refl|].
  repeat match goal with
         | |- context [if ?b then _ else _] => destruct b
         end;
    cbn [stop end_is List.length];
    try apply Nat.le_refl; try (apply Nat.le_succ_diag_r);
    apply Nat.le_le_succ_r, IH.
Qed.

(** A call of [next_tok] finds the end of the stream, or takes at least
    one character, or is about to throw. *)
Lemma read_loop_progress (ist : list wchar_t) :
  let r := read_loop loc scan_init ist in
  end_eof r = true \/
  (List.length (end_is r) < List.length ist)%nat \/
  (end_valid r = false /\ is_operator (end_str r) = false /\
   end_got_eoi r = false /\ end_eof r = false).
Proof.
  destruct ist as [|c ist]; [now left|].
  cbn [read_loop scan_init str got_radixpt is_valid_num empty negb].
  destruct (c =? EOI); [right; left; apply Nat.lt_succ_diag_r|].
  destruct (N.eqb_spec c MINUS) as [->|N1];
    [right; left; apply Nat.lt_succ_r, read_loop_length|].
  destruct (N.eqb_spec c PLUS) as [->|N2];
    [right; left; apply Nat.lt_succ_r, read_loop_length|].
  cbn [orb].
  destruct (c =? RADIX_POINT);
    [right; left; apply Nat.lt_succ_r, read_loop_length|].
  destruct (N.eqb_spec c MULT) as [->|N3];
    [right; left; apply Nat.lt_succ_diag_r|].
  destruct (N.eqb_spec c DIV) as [->|N4];
    [right; left; apply Nat.lt_succ_diag_r|].
  cbn [orb].
  destruct (isspace loc c);
    [right; left; apply Nat.lt_succ_r, read_loop_length|].
  destruct (isdigit loc c); cbn [negb].
  - right; left; apply Nat.lt_succ_r, read_loop_length.
  - right; right. cbn [stop end_valid end_str end_got_eoi end_eof app].
    repeat split. apply (is_operator_snoc [] c); assumption.
Qed.

Lemma next_tok_progress (g g' : tok_state) (tok : wstring) :
  EndOfInput g = false ->
  next_tok loc g = (Return tok, g') ->
  EndOfInput g' = true \/
  (List.length (wcin g') < List.length (wcin g))%nat.
Proof.
  intros E. unfold next_tok, next_tok_from. rewrite E.
  pose proof (read_loop_progress (wcin g)) as P. cbn zeta in P.
  destruct (read_loop loc scan_init (wcin g)) as [s vn ge eo rest].
  cbn [end_eof end_got_eoi end_valid end_str end_is] in *.
  destruct P as [->|[Hlt|(-> & -> & -> & ->)]].
  - cbn. intros T. inversion T. now left.
  - destruct (_ && _); intros T; inversion T; subst. now right.
  - cbn. discriminate.
Qed.

Variable v : bool.

Lemma io_on_number (tok : wstring) (m : machine) :
  io (snd (on_number loc v tok m)) = io m.
Proof.
  unfold on_number. destruct (_ && _); cbn [snd with_mem io];
    [reflexivity|apply io_verbose].
Qed.

Lemma io_on_operator (tok : wstring) (m : machine) :
  io (snd (on_operator v tok m)) = io m.
Proof.
  unfold on_operator.
  repeat match goal with
         | |- context [if ?b then _ else _] => destruct b
         end;
    cbn [snd with_mem io]; rewrite ?io_verbose; cbn [with_mem io];
    rewrite ?io_verbose; cbn [with_mem io]; rewrite ?io_verbose; reflexivity.
Qed.

(** Fuel beyond the length of the stream is never used up. *)
Lemma loop_enough_fuel (fuel : nat) :
  forall m,
    EndOfInput (io m) = true \/ (List.length (wcin (io m)) < fuel)%nat ->
    fst (loop loc v fuel m) <> OutOfFuel.
Proof.
  induction fuel as [|fuel IH]; intros m H.
  - destruct H as [E|Hl]; [|inversion Hl]. cbn. now rewrite E.
  - cbn [loop]. destruct (EndOfInput (io m)) eqn:E; [discriminate|].
    destruct H as [H|Hl]; [discriminate H|].
    destruct (next_tok loc (io m)) as [[tok|e] g] eqn:T; [|discriminate].
    assert (P : EndOfInput g = true \/ (List.length (wcin g) < fuel)%nat).
    { destruct (next_tok_progress _ _ _ E T) as [P|P]; [now left|right; lia]. }
    destruct (negb (EndOfInput g) || negb (empty tok)).
    + destruct (negb (IsOperator g)).
      * pose proof (io_on_number tok (with_io m g)) as I.
        destruct (on_number loc v tok (with_io m g)) as [[u|e] m'];
          [|discriminate].
        apply IH. cbn [snd with_io io] in I. now rewrite I.
      * pose proof (io_on_operator tok (with_io m g)) as I.
        destruct (on_operator v tok (with_io m g)) as [[u|e] m'];
          [|discriminate].
        apply IH. cbn [snd with_io io] in I. now rewrite I.
    + apply IH. exact P.
Qed.

(** [main] always comes to an end of the [try] block. *)
Lemma main_ends (input : list wchar_t) :
  fst (main loc v input) <> OutOfFuel.
Proof.
  unfold main, try_block.
  pose proof (loop_enough_fuel (S (List.length input)) (start input)) as H.
  destruct (loop loc v (S (List.length input)) (start input)) as [[| | |] m];
    cbn [fst] in *.
  - unfold print_result.
    repeat match goal with
           | |- context [if ?b then _ else _] => destruct b
           end; discriminate.
  - discriminate.
  - discriminate.
  - apply H. right. cbn. apply Nat.lt_succ_diag_r.
Qed.

End Progress.

(** ** The verbose flag only adds to the trace *)

Section Verbosity.

Variable loc : locale.

Lemma quiet_say (m : machine) (o : list output) :
  filter is_value o = [] -> quiet (say m o) = quiet m.
Proof.
  intros E. unfold quiet, say. cbn [io mem wcout wcerr].
  now rewrite filter_app, E, app_nil_r.
Qed.

Lemma quiet_say_value (m : machine) (x : float) :
  quiet (say m [SayValue x]) = say (quiet m) [SayValue x].
Proof.
  unfold quiet, say. cbn [io mem wcout wcerr]. now rewrite filter_app.
Qed.

Lemma quiet_with_mem (m : machine) (l : list float) :
  quiet (with_mem m l) = with_mem (quiet m) l.
Proof. reflexivity. Qed.

Lemma quiet_with_io (m : machine) (g : tok_state) :
  quiet (with_io m g) = with_io (quiet m) g.
Proof. reflexivity. Qed.

Lemma quiet_complain (m : machine) (d : diagnostic) :
  quiet (complain m d) = complain (quiet m) (hush d).
Proof.
  unfold quiet, complain. cbn [io mem wcout wcerr]. now rewrite map_app.
Qed.

Lemma mem_say (m : machine) (o : list output) : mem (say m o) = mem m.
Proof. reflexivity. Qed.

Lemma mem_quiet (m : machine) : mem (quiet m) = mem m.
Proof. reflexivity. Qed.

Lemma print_stack_no_value (l : list float) :
  filter is_value (print_stack l) = [].
Proof. induction l as [|n l IH]; [reflexivity|exact IH]. Qed.

(** The lines of the trace hold no result. *)
Ltac no_value :=
  cbn [filter is_value];
  rewrite ?filter_app, ?print_stack_no_value; reflexivity.

(** Push [quiet] through the updates of a machine. *)
Ltac hush_trace :=
  repeat progress (rewrite ?quiet_with_mem, ?quiet_complain, ?quiet_say_value;
                   rewrite ?quiet_say by no_value);
  reflexivity.

Lemma on_number_quiet (tok : wstring) (m : machine) :
  on_number loc false tok (quiet m)
  = (fst (on_number loc true tok m), quiet (snd (on_number loc true tok m))).
Proof.
  unfold on_number, verbose.
  destruct (_ && _); cbn [fst snd]; [reflexivity|hush_trace].
Qed.

Lemma on_operator_quiet (tok : wstring) (m : machine) :
  on_operator false tok (quiet m)
  = (fst (on_operator true tok m), quiet (snd (on_operator true tok m))).
Proof.
  unfold on_operator, verbose.
  cbn [with_mem mem]. rewrite !mem_say, !mem_quiet. cbn [with_mem mem].
  destruct (empty (mem m)); cbn [fst snd]; [hush_trace|].
  destruct (empty (pop_back (mem m))); cbn [fst snd]; [hush_trace|].
  destruct (_ && _); cbn [fst snd]; hush_trace.
Qed.

Lemma loop_quiet (fuel : nat) :
  forall m,
    loop loc false fuel (quiet m)
    = (fst (loop loc true fuel m), quiet (snd (loop loc true fuel m))).
Proof.
  induction fuel as [|fuel IH]; intros m; cbn [loop];
    change (io (quiet m)) with (io m).
  - destruct (EndOfInput (io m)); reflexivity.
  - destruct (EndOfInput (io m)); [reflexivity|].
    destruct (next_tok loc (io m)) as [[tok|e] g]; [|reflexivity].
    change (with_io (quiet m) g) with (quiet (with_io m g)).
    destruct (negb (EndOfInput g) || negb (empty tok)); [|apply IH].
    destruct (negb (IsOperator g)).
    + rewrite on_number_quiet.
      destruct (on_number loc true tok (with_io m g)) as [[u|e] m'];
        cbn [fst snd]; [apply IH|reflexivity].
    + rewrite on_operator_quiet.
      destruct (on_operator true tok (with_io m g)) as [[u|e] m'];
        cbn [fst snd]; [apply IH|reflexivity].
Qed.

Lemma print_result_quiet (m : machine) :
  print_result false (quiet m)
  = (fst (print_result true m), quiet (snd (print_result true m))).
Proof.
  unfold print_result, verbose.
  cbn [with_mem mem]. rewrite !mem_say, !mem_quiet.
  destruct (empty (mem m)); cbn [fst snd]; [hush_trace|].
  destruct (negb (empty (pop_back (mem m)))); cbn [fst snd]; hush_trace.
Qed.

Lemma try_block_quiet (fuel : nat) (m : machine) :
  try_block loc false fuel (quiet m)
  = (fst (try_block loc true fuel m), quiet (snd (try_block loc true fuel m))).
Proof.
  unfold try_block. rewrite loop_quiet.
  destruct (loop loc true fuel m) as [[|e| |] m']; cbn [fst snd].
  - apply print_result_quiet.
  - now rewrite quiet_complain.
  - reflexivity.
  - reflexivity.
Qed.

End Verbosity.

(** C9: on the same input, in any locale, the run with the verbose flag
    and the run without it leave the [try] block the same way (the same
    exception, if any), print the same result value, and end with the same
    stack, the same globals and the same rest of the stream; the verbose
    run only adds trace lines to [wcout] and the label of the stack
    listing to the warning. *)
Theorem C9_verbose_does_not_change_the_outcome :
  forall (loc : locale) (input : list wchar_t),
    let loud := main loc true input in
    let calm := main loc false input in
    fst loud = fst calm /\
    quiet (snd loud) = snd calm /\
    filter is_value (wcout (snd loud)) = wcout (snd calm) /\
    mem (snd loud) = mem (snd calm).
Proof.
  intros loc input loud calm.
  assert (E : calm = (fst loud, quiet (snd loud))).
  { subst loud calm. unfold main.
    change (start input) with (quiet (start input)) at 1.
    apply try_block_quiet. }
  rewrite E. cbn [fst snd]. repeat split.
Qed.

(** ** Reading the lexemes of a written expression *)

Section Lexemes.

Variable loc : locale.

Lemma plain_spec (c : wchar_t) :
  plain c = true ->
  (c =? EOI) = false /\ (c =? MINUS) = false /\ (c =? PLUS) = false /\
  (c =? RADIX_POINT) = false /\ (c =? MULT) = false /\ (c =? DIV) = false.
Proof.
  unfold plain. rewrite !andb_true_iff, !negb_true_iff. tauto.
Qed.

Lemma read_loop_blank (st : scan_state) (c : wchar_t) (s : list wchar_t) :
  blank loc c = true -> str st = [] ->
  read_loop loc st (c :: s) = read_loop loc st s.
Proof.
  unfold blank. rewrite andb_true_iff. intros [P S] E.
  apply plain_spec in P. destruct P as (E1 & E2 & E3 & E4 & E5 & E6).
  cbn [read_loop]. now rewrite E1, E2, E3, E4, E5, E6, S, E.
Qed.

Lemma read_loop_blanks (ws s : list wchar_t) :
  forallb (blank loc) ws = true ->
  read_loop loc scan_init (ws ++ s) = read_loop loc scan_init s.
Proof.
  induction ws as [|c ws IH]; [reflexivity|].
  cbn [forallb app]. rewrite andb_true_iff. intros [B F].
  rewrite read_loop_blank by (exact B || reflexivity). now apply IH.
Qed.

Lemma read_loop_digit (st : scan_state) (c : wchar_t) (s : list wchar_t) :
  digit loc c = true ->
  read_loop loc st (c :: s)
  = read_loop loc {| str := str st ++ [c]; got_radixpt := got_radixpt st;
                     is_valid_num := true |} s.
Proof.
  unfold digit. rewrite !andb_true_iff, negb_true_iff. intros [[P S] D].
  apply plain_spec in P. destruct P as (E1 & E2 & E3 & E4 & E5 & E6).
  cbn [read_loop]. now rewrite E1, E2, E3, E4, E5, E6, S, D.
Qed.

Lemma read_loop_digits (ds : wstring) :
  forall (st : scan_state) (s : list wchar_t),
    forallb (digit loc) ds = true -> ds <> [] ->
    read_loop loc st (ds ++ s)
    = read_loop loc {| str := str st ++ ds; got_radixpt := got_radixpt st;
                       is_valid_num := true |} s.
Proof.
  induction ds as [|c ds IH]; intros st s F N; [easy|].
  cbn [forallb] in F. apply andb_true_iff in F. destruct F as [D F].
  cbn [app]. rewrite read_loop_digit by exact D.
  destruct ds as [|d ds]; [reflexivity|].
  rewrite IH by (exact F || discriminate).
  cbn [str got_radixpt]. now rewrite <- app_assoc.
Qed.

Lemma read_loop_ends (st : scan_state) (tl : list wchar_t) :
  str st <> [] -> ends_lexeme loc tl = true ->
  read_loop loc st tl = finish_lexeme (str st) (is_valid_num st) tl.
Proof.
  intros N. destruct tl as [|c tl]; [reflexivity|].
  cbn [ends_lexeme read_loop finish_lexeme].
  destruct (c =? EOI); [reflexivity|]. cbn [orb].
  unfold blank. rewrite andb_true_iff. intros [P S].
  apply plain_spec in P. destruct P as (_ & E2 & E3 & E4 & E5 & E6).
  rewrite E2, E3, E4, E5, E6, S.
  destruct (str st); [easy|reflexivity].
Qed.

Lemma read_loop_radix_point (s : wstring) (vn : bool) (rest : list wchar_t) :
  s <> [] ->
  read_loop loc {| str := s; got_radixpt := false; is_valid_num := vn |}
            (RADIX_POINT :: rest)
  = read_loop loc {| str := s ++ [RADIX_POINT]; got_radixpt := true;
                     is_valid_num := false |} rest.
Proof. destruct s; [easy|reflexivity]. Qed.

Lemma read_loop_sign (c : wchar_t) (rest : list wchar_t) :
  (c =? MINUS) || (c =? PLUS) = true ->
  read_loop loc scan_init (c :: rest)
  = read_loop loc {| str := [c]; got_radixpt := false;
                     is_valid_num := false |} rest.
Proof.
  rewrite orb_true_iff, !N.eqb_eq. intros [->| ->]; reflexivity.
Qed.

(** The digits, and the fraction if there is one, after the sign. *)
Lemma read_loop_unsigned (sg w : wstring) (f : option wstring)
      (tl : list wchar_t) :
  w <> [] -> forallb (digit loc) w = true ->
  match f with
  | Some fr => negb (empty fr) && forallb (digit loc) fr
  | None => true
  end = true ->
  ends_lexeme loc tl = true ->
  read_loop loc {| str := sg; got_radixpt := false; is_valid_num := false |}
            (w ++ match f with Some fr => RADIX_POINT :: fr | None => [] end
               ++ tl)
  = finish_lexeme
      (sg ++ w ++ match f with Some fr => RADIX_POINT :: fr | None => [] end)
      true tl.
Proof.
  intros Nw Fw Ff Htl.
  rewrite read_loop_digits by assumption. cbn [str got_radixpt].
  assert (Nsw : sg ++ w <> []) by (destruct sg, w; easy).
  destruct f as [fr|].
  - apply andb_true_iff in Ff. destruct Ff as [Nf Ff].
    assert (Nfr : fr <> []) by (destruct fr; easy).
    cbn [app]. rewrite read_loop_radix_point by exact Nsw.
    rewrite read_loop_digits by assumption. cbn [str got_radixpt].
    rewrite read_loop_ends; cbn [str is_valid_num].
    + now rewrite <- !app_assoc.
    + destruct sg, w; easy.
    + exact Htl.
  - cbn [app]. rewrite read_loop_ends; cbn [str is_valid_num].
    + now rewrite app_nil_r.
    + exact Nsw.
    + exact Htl.
Qed.

Lemma read_loop_numeral (n : numeral) (tl : list wchar_t) :
  well_formed_numeral loc n = true -> ends_lexeme loc tl = true ->
  read_loop loc scan_init (numeral_text n ++ tl)
  = finish_lexeme (numeral_text n) true tl.
Proof.
  destruct n as [sg w f]. unfold well_formed_numeral, numeral_text.
  cbn [num_sign num_whole num_fraction].
  rewrite !andb_true_iff, negb_true_iff. intros [[[Hs Nw] Fw] Ff] Htl.
  assert (Nw' : w <> []) by (destruct w; easy).
  destruct sg as [c|].
  - rewrite <- !app_assoc. cbn [app].
    rewrite read_loop_sign by exact Hs.
    now apply (read_loop_unsigned [c]).
  - cbn [app]. rewrite <- app_assoc. now apply (read_loop_unsigned []).
Qed.

Lemma read_loop_binop (o : binop) (tl : list wchar_t) :
  ends_lexeme loc tl = true ->
  read_loop loc scan_init (binop_char o :: tl)
  = match o with
    | Add | Sub => finish_lexeme [binop_char o] false tl
    | Mul | Div => stop [binop_char o] false false tl
    end.
Proof.
  intros Htl. destruct o; try reflexivity;
    (rewrite read_loop_sign by reflexivity;
     now rewrite read_loop_ends by (exact Htl || discriminate)).
Qed.

End Lexemes.

(** ** Running a written expression *)

Section Expressions.

Variable loc : locale.
Hypothesis space_is_space : isspace loc SPACE = true.

Lemma blank_space : blank loc SPACE = true.
Proof. unfold blank. now rewrite space_is_space. Qed.

(** After a lexeme that [tl] ends, [EndOfInput] having been false. *)
Lemma finish_lexeme_resumes (s : wstring) (vn isop : bool)
      (tl : list wchar_t) :
  ends_lexeme loc tl = true ->
  let r := finish_lexeme s vn tl in
  resumes_at loc
    {| EndOfInput := if end_eof r || end_got_eoi r then true else false;
       IsOperator := isop; wcin := end_is r |} tl.
Proof.
  destruct tl as [|c tl]; [intros _; now right|].
  cbn [ends_lexeme finish_lexeme].
  destruct (N.eqb_spec c EOI) as [->|N]; cbn [orb]; intros B;
    [now right|now left].
Qed.

Lemma numeral_text_not_empty (n : numeral) :
  well_formed_numeral loc n = true -> empty (numeral_text n) = false.
Proof.
  destruct n as [[c|] [|d w] f]; unfold well_formed_numeral; cbn;
    rewrite ?andb_false_r; easy.
Qed.

Lemma is_operator_single (s : wstring) :
  is_operator s = true -> exists c, s = [c] /\ plain c = false.
Proof.
  unfold is_operator. rewrite !orb_true_iff, !wstring_eqb_eq.
  intros [[[->| ->]| ->]| ->]; eexists; split; reflexivity.
Qed.

Lemma numeral_text_not_operator (n : numeral) :
  well_formed_numeral loc n = true -> is_operator (numeral_text n) = false.
Proof.
  intros W. apply not_true_is_false. intros O.
  apply is_operator_single in O. destruct O as (c & E & P).
  destruct n as [sg w f]. unfold well_formed_numeral, numeral_text in *.
  cbn [num_sign num_whole num_fraction] in *.
  rewrite !andb_true_iff, negb_true_iff in W.
  destruct W as [[[_ Nw] Fw] Ff].
  destruct w as [|d w]; [discriminate Nw|].
  cbn [forallb] in Fw. apply andb_true_iff in Fw. destruct Fw as [D _].
  unfold digit in D. rewrite !andb_true_iff in D. destruct D as [[D _] _].
  destruct sg as [c'|]; cbn [app] in E.
  - destruct w, f; discriminate E.
  - inversion E; subst. congruence.
Qed.

(** [next_tok] on a number of the expression. *)
Lemma next_tok_numeral (isop : bool) (lead : list wchar_t) (n : numeral)
      (tl : list wchar_t) :
  forallb (blank loc) lead = true ->
  well_formed_numeral loc n = true ->
  ends_lexeme loc tl = true ->
  exists g,
    next_tok loc {| EndOfInput := false; IsOperator := isop;
                    wcin := lead ++ numeral_text n ++ tl |}
    = (Return (numeral_text n), g) /\
    IsOperator g = false /\ resumes_at loc g tl.
Proof.
  intros Hl W Htl. unfold next_tok, next_tok_from. cbn [wcin EndOfInput].
  rewrite read_loop_blanks by exact Hl.
  rewrite read_loop_numeral by assumption.
  pose proof (finish_lexeme_resumes (numeral_text n) true
                (is_operator (numeral_text n)) tl Htl) as R.
  cbn zeta in R.
  assert (V : end_valid (finish_lexeme (numeral_text n) true tl) = true).
  { destruct tl as [|c tl]; [reflexivity|]. cbn. now destruct (c =? EOI). }
  assert (S : end_str (finish_lexeme (numeral_text n) true tl)
              = numeral_text n).
  { destruct tl as [|c tl]; [reflexivity|]. cbn. now destruct (c =? EOI). }
  rewrite V, S. cbn [negb]. rewrite andb_false_r, andb_false_l.
  eexists. split; [reflexivity|]. split.
  - cbn [IsOperator]. now apply numeral_text_not_operator.
  - exact R.
Qed.

(** [next_tok] on an operator of the expression. *)
Lemma next_tok_binop (isop : bool) (lead : list wchar_t) (o : binop)
      (tl : list wchar_t) :
  forallb (blank loc) lead = true ->
  ends_lexeme loc tl = true ->
  exists g,
    next_tok loc {| EndOfInput := false; IsOperator := isop;
                    wcin := lead ++ binop_char o :: tl |}
    = (Return [binop_char o], g) /\ resumes_at loc g tl.
Proof.
  intros Hl Htl. unfold next_tok, next_tok_from. cbn [wcin EndOfInput].
  rewrite read_loop_blanks by exact Hl.
  rewrite read_loop_binop by exact Htl.
  destruct o; cbn [binop_char].
  - pose proof (finish_lexeme_resumes [PLUS] false true tl Htl) as R.
    cbn zeta in R. destruct tl as [|c tl]; [eexists; split; [reflexivity|exact R]|].
    cbn [finish_lexeme] in *. destruct (c =? EOI);
      eexists; (split; [reflexivity|exact R]).
  - pose proof (finish_lexeme_resumes [MINUS] false true tl Htl) as R.
    cbn zeta in R. destruct tl as [|c tl]; [eexists; split; [reflexivity|exact R]|].
    cbn [finish_lexeme] in *. destruct (c =? EOI);
      eexists; (split; [reflexivity|exact R]).
  - eexists. split; [reflexivity|]. now left.
  - eexists. split; [reflexivity|]. now left.
Qed.

Lemma loop_finished (v : bool) (fuel : nat) (m : machine) :
  EndOfInput (io m) = true -> loop loc v fuel m = (Finished, m).
Proof. intros E. destruct fuel; cbn [loop]; now rewrite E. Qed.

(** Fuel that is not used up can be added to. *)
Lemma loop_more_fuel (v : bool) (fuel : nat) :
  forall m,
    fst (loop loc v fuel m) <> OutOfFuel ->
    forall extra, loop loc v (extra + fuel) m = loop loc v fuel m.
Proof.
  induction fuel as [|fuel IH]; intros m H extra.
  - cbn [loop] in *. destruct (EndOfInput (io m)) eqn:E; [|easy].
    now apply loop_finished.
  - rewrite Nat.add_succ_r. cbn [loop] in *.
    destruct (EndOfInput (io m)); [reflexivity|].
    destruct (next_tok loc (io m)) as [[tok|e] g]; [|reflexivity].
    destruct (negb (EndOfInput g) || negb (empty tok)); [|now apply IH].
    destruct (if negb (IsOperator g) then on_number loc v tok (with_io m g)
              else on_operator v tok (with_io m g)) as [[u|e] m'];
      [now apply IH|reflexivity].
Qed.

Lemma closing_ends_lexeme (tl : list wchar_t) :
  closing loc tl = true -> ends_lexeme loc tl = true.
Proof.
  destruct tl as [|c tl]; [reflexivity|]. cbn [closing ends_lexeme].
  rewrite !orb_true_iff, andb_true_iff. tauto.
Qed.

Lemma read_loop_closing (tl : list wchar_t) :
  closing loc tl = true ->
  end_str (read_loop loc scan_init tl) = [] /\
  end_eof (read_loop loc scan_init tl)
  || end_got_eoi (read_loop loc scan_init tl) = true.
Proof.
  induction tl as [|c tl IH]; [now split|].
  cbn [closing]. destruct (N.eqb_spec c EOI) as [->|N]; [now split|].
  cbn [orb]. rewrite andb_true_iff. intros [B C].
  rewrite read_loop_blank by (exact B || reflexivity). now apply IH.
Qed.

(** After the expression the loop takes one more turn at most, on an
    empty token, and ends. *)
Lemma loop_closing (v : bool) (fuel : nat) (m : machine) :
  EndOfInput (io m) = false ->
  closing loc (wcin (io m)) = true ->
  exists g, loop loc v (S fuel) m = (Finished, with_io m g).
Proof.
  intros E C. apply read_loop_closing in C. destruct C as [S X].
  cbn [loop]. rewrite E. unfold next_tok, next_tok_from.
  rewrite S, X. cbn [negb andb orb empty].
  eexists. now rewrite loop_finished.
Qed.

(** One turn of the loop on a number of the expression. *)
Lemma loop_numeral (m : machine) (lead : list wchar_t)
      (n : numeral) (x : float) (tl : list wchar_t) :
  forallb (blank loc) lead = true ->
  well_formed_numeral loc n = true ->
  numeral_value loc n = Some x ->
  ends_lexeme loc tl = true ->
  EndOfInput (io m) = false ->
  wcin (io m) = lead ++ numeral_text n ++ tl ->
  exists g,
    resumes_at loc g tl /\
    forall fuel,
      loop loc false (S fuel) m
      = loop loc false fuel (with_mem (with_io m g) (mem m ++ [x])).
Proof.
  intros Hl W V Htl E I.
  destruct m as [[eoi isop inp] st out err].
  cbn [io EndOfInput wcin] in E, I. subst eoi inp.
  destruct (next_tok_numeral isop lead n tl Hl W Htl) as (g & T & O & R).
  exists g. split; [exact R|]. intros fuel.
  cbn [loop io EndOfInput]. rewrite T, O.
  rewrite (numeral_text_not_empty _ W). cbn [negb]. rewrite orb_true_r.
  unfold on_number, numeral_value in *.
  destruct (extract loc (numeral_text n)) as [val good eof].
  cbn [ex_good ex_eof ex_value] in *.
  rewrite <- negb_orb.
  destruct (good || eof); [|discriminate V].
  inversion V; subst. reflexivity.
Qed.

(** One turn of the loop on an operator of the expression, two values
    being on the stack. *)
Lemma loop_binop (m : machine) (lead : list wchar_t)
      (o : binop) (s : list float) (x y : float) (tl : list wchar_t) :
  forallb (blank loc) lead = true ->
  ends_lexeme loc tl = true ->
  EndOfInput (io m) = false ->
  wcin (io m) = lead ++ binop_char o :: tl ->
  mem m = s ++ [x; y] ->
  exists g,
    resumes_at loc g tl /\
    forall fuel,
    loop loc false (S fuel) m
    = match o with
      | Add => loop loc false fuel (with_mem (with_io m g) (s ++ [x + y]%float))
      | Sub => loop loc false fuel (with_mem (with_io m g) (s ++ [x - y]%float))
      | Mul => loop loc false fuel (with_mem (with_io m g) (s ++ [x * y]%float))
      | Div =>
          if PrimFloat.eqb y 0
          then (Raised (DivByZero x), with_mem (with_io m g) s)
          else loop loc false fuel (with_mem (with_io m g) (s ++ [x / y]%float))
      end.
Proof.
  intros Hl Htl E I M.
  destruct m as [[eoi isop inp] st out err].
  cbn [io EndOfInput wcin mem] in E, I, M. subst eoi inp st.
  destruct (next_tok_binop isop lead o tl Hl Htl) as (g & T & R).
  exists g. split; [exact R|]. intros fuel.
  erewrite (loop_on_operator loc false fuel _ [binop_char o] g);
    [|reflexivity|exact T|now destruct o].
  erewrite (on_operator_pair false [binop_char o] _ s x y);
    [|reflexivity].
  destruct o; cbn [binop_char wstring_eqb wstring1 andb N.eqb Pos.eqb
                   PLUS MINUS MULT DIV]; try reflexivity.
  destruct (PrimFloat.eqb y 0); reflexivity.
Qed.

Lemma resumes_at_space (g : tok_state) (tl : list wchar_t) :
  resumes_at loc g (SPACE :: tl) ->
  EndOfInput g = false /\ wcin g = SPACE :: tl.
Proof.
  intros [R|[_ C]]; [exact R|].
  cbn [continues] in C. now rewrite blank_space in C.
Qed.

Lemma ends_lexeme_space (tl : list wchar_t) :
  ends_lexeme loc (SPACE :: tl) = true.
Proof. cbn [ends_lexeme]. now rewrite blank_space. Qed.

(** The loop takes the expression lexeme by lexeme and leaves its value on
    top of the stack. *)
Lemma loop_expr (e : expr) :
  forall x : float,
    well_formed loc e = true -> denote loc e = Some x ->
    forall (lead tl : list wchar_t) (m : machine),
      forallb (blank loc) lead = true ->
      ends_lexeme loc tl = true ->
      EndOfInput (io m) = false ->
      wcin (io m) = lead ++ postfix_text e ++ tl ->
      exists (k : nat) (g : tok_state),
        resumes_at loc g tl /\
        forall fuel,
          loop loc false (k + fuel) m
          = loop loc false fuel (with_mem (with_io m g) (mem m ++ [x])).
Proof.
  induction e as [n|o a IHa b IHb]; intros x W V lead tl m Hl Htl E I.
  - destruct (loop_numeral m lead n x tl Hl W V Htl E I) as (g & R & H).
    exists 1%nat, g. split; [exact R|exact H].
  - cbn [well_formed] in W. apply andb_true_iff in W. destruct W as [Wa Wb].
    cbn [denote] in V.
    destruct (denote loc a) as [xa|]; [|discriminate V].
    destruct (denote loc b) as [xb|]; [|discriminate V].
    cbn [postfix_text] in I.
    rewrite <- !app_assoc in I. cbn [app] in I. rewrite <- app_assoc in I.
    cbn [app] in I.
    destruct (IHa xa Wa eq_refl lead _ m Hl (ends_lexeme_space _) E I)
      as (ka & ga & Ra & Ha).
    apply resumes_at_space in Ra. destruct Ra as [Ea Ia].
    destruct (IHb xb Wb eq_refl [SPACE] (SPACE :: binop_char o :: tl)
                (with_mem (with_io m ga) (mem m ++ [xa])))
      as (kb & gb & Rb & Hb).
    { cbn [forallb]. now rewrite blank_space. }
    { apply ends_lexeme_space. }
    { exact Ea. }
    { exact Ia. }
    apply resumes_at_space in Rb. destruct Rb as [Eb Ib].
    destruct (loop_binop
                (with_mem (with_io (with_mem (with_io m ga) (mem m ++ [xa])) gb)
                   ((mem m ++ [xa]) ++ [xb]))
                [SPACE] o (mem m) xa xb tl)
      as (g & R & H).
    { cbn [forallb]. now rewrite blank_space. }
    { exact Htl. }
    { exact Eb. }
    { exact Ib. }
    { cbn [with_mem mem]. now rewrite <- app_assoc. }
    exists (ka + (kb + 1))%nat, g. split; [exact R|]. intros fuel.
    replace (ka + (kb + 1) + fuel)%nat with (ka + (kb + S fuel))%nat by lia.
    rewrite Ha, Hb, H.
    destruct o.
    + inversion V; subst. reflexivity.
    + inversion V; subst. reflexivity.
    + inversion V; subst. reflexivity.
    + destruct (PrimFloat.eqb xb 0); [discriminate V|].
      inversion V; subst. reflexivity.
Qed.

End Expressions.

(** C5: the final result is read with [mem.back()] without a test for an
    empty stack, unlike the two pops of an operator: on an input without
    any token (white space up to the terminator or the end of the stream)
    the program reaches undefined behaviour; it does not throw
    [InvalidInput] and no handler reports anything. *)
Theorem C5_final_pop_is_unchecked :
  (forall (v : bool) (m : machine),
      fst (print_result v (with_mem m [])) = Undefined) /\
  (forall (loc : locale) (v : bool) (tl : list wchar_t),
      closing loc tl = true ->
      let r := main loc v tl in
      fst r = Undefined /\ wcerr (snd r) = [] /\
      fst r <> Raised (InvalidInput [])) /\
  (forall v : bool,
      fst (main classic v (L ";")) = Undefined /\
      fst (main classic v []) = Undefined).
Proof.
  split; [|split].
  - intros [|] m; reflexivity.
  - intros loc v tl C r. subst r. unfold main, try_block.
    destruct (loop_closing loc v (List.length tl) (start tl) eq_refl C)
      as (g & H).
    rewrite H. unfold print_result. rewrite mem_verbose.
    cbn [with_io start mem empty fst snd].
    rewrite wcerr_verbose. repeat split. discriminate.
  - intros [|]; split; reflexivity.
Qed.

Lemma C5_witness :
  closing classic (L "  ;") = true /\
  fst (main classic false (L "  ;")) = Undefined /\
  wcerr (snd (main classic false (L "  ;"))) = [] /\
  fst (main classic false (L "  ;")) <> Raised (InvalidInput []).
Proof.
  split; [reflexivity|].
  apply (proj1 (proj2 C5_final_pop_is_unchecked) classic false (L "  ;")).
  reflexivity.
Defined.

(** * Further properties of the tokenizer *)

Section TokenizerInvariants.

Variable loc : locale.

(** [next_tok] only takes characters from the front of the stream: what
    it leaves is a suffix of what it found, a [putback] restoring the
    character just read. *)
Lemma read_loop_suffix (ist : list wchar_t) :
  forall st, exists taken,
    ist = taken ++ end_is (read_loop loc st ist).
Proof.
  induction ist as [|c ist IH]; intros st; [now exists []|].
  cbn [read_loop].
  repeat match goal with
         | |- context [if ?b then _ else _] => destruct b
         end;
    cbn [stop end_is];
    try (now exists []); try (now exists [c]);
    match goal with
    | |- context [read_loop loc ?st' ist] =>
        destruct (IH st') as (taken & E); exists (c :: taken);
        cbn [app]; now rewrite <- E
    end.
Qed.

(** The loop only appends to the lexeme. *)
Lemma read_loop_extends (ist : list wchar_t) :
  forall st, exists t, end_str (read_loop loc st ist) = str st ++ t.
Proof.
  induction ist as [|c ist IH]; intros st;
    [exists []; cbn; now rewrite app_nil_r|].
  cbn [read_loop].
  repeat match goal with
         | |- context [if ?b then _ else _] => destruct b eqn:?
         end;
    cbn [stop end_str];
    try (exists []; now rewrite app_nil_r); try (now exists [c]);
    match goal with
    | |- context [read_loop loc ?st' ist] =>
        destruct (IH st') as (t & E); rewrite E; cbn [str];
        rewrite <- ?app_assoc; eexists; reflexivity
    end.
Qed.

(** A lexeme marked as a valid number ends in a digit. *)
Lemma read_loop_valid (ist : list wchar_t) :
  forall st,
    (is_valid_num st = true -> ends_in_digit loc (str st)) ->
    end_valid (read_loop loc st ist) = true ->
    ends_in_digit loc (end_str (read_loop loc st ist)).
Proof.
  induction ist as [|c ist IH]; intros st H; [exact H|].
  assert (Hempty : empty (str st) = true -> is_valid_num st = true -> False).
  { intros E V. destruct (H V) as (t & d & E' & _). rewrite E' in E.
    now destruct t. }
  cbn [read_loop].
  destruct (c =? EOI); [exact H|].
  destruct ((c =? MINUS) || (c =? PLUS)).
  { destruct (empty (str st)) eqn:Es; cbn [negb]; [|exact H].
    apply IH. cbn [str is_valid_num]. intros V. now destruct (Hempty eq_refl). }
  destruct (c =? RADIX_POINT).
  { destruct (got_radixpt st); [exact H|]. apply IH. discriminate. }
  destruct ((c =? MULT) || (c =? DIV)).
  { destruct (empty (str st)) eqn:Es; cbn [negb]; [|exact H].
    cbn [stop end_valid end_str]. intros V. now destruct (Hempty eq_refl). }
  destruct (isspace loc c).
  { destruct (empty (str st)); [now apply IH|exact H]. }
  destruct (isdigit loc c) eqn:D; cbn [negb]; [|discriminate].
  apply IH. cbn [str is_valid_num]. intros _. now exists (str st), c.
Qed.

(** Text that has a radix point in it is not empty; so the loop is left
    with an empty lexeme only at the terminator or the end of the
    stream. *)
Lemma read_loop_not_empty (ist : list wchar_t) :
  forall st,
    (got_radixpt st = true -> str st <> []) ->
    end_eof (read_loop loc st ist) = false ->
    end_got_eoi (read_loop loc st ist) = false ->
    end_str (read_loop loc st ist) <> [].
Proof.
  induction ist as [|c ist IH]; intros st H; [discriminate|].
  assert (Snoc : forall x : wchar_t, str st ++ [x] <> [])
    by (intros x; destruct (str st); discriminate).
  cbn [read_loop].
  destruct (c =? EOI); [discriminate|].
  destruct ((c =? MINUS) || (c =? PLUS)).
  { destruct (empty (str st)) eqn:Es; cbn [negb].
    - apply IH. intros _. apply Snoc.
    - intros _ _. cbn. now destruct (str st). }
  destruct (c =? RADIX_POINT).
  { destruct (got_radixpt st) eqn:G.
    - intros _ _. now apply H.
    - apply IH. intros _. cbn [str].
      destruct (if empty (str st) then _ else _); discriminate. }
  destruct ((c =? MULT) || (c =? DIV)).
  { destruct (empty (str st)) eqn:Es; cbn [negb]; intros _ _; cbn.
    - apply Snoc.
    - now destruct (str st). }
  destruct (isspace loc c).
  { destruct (empty (str st)) eqn:Es; [now apply IH|].
    intros _ _. cbn. now destruct (str st). }
  destruct (isdigit loc c); cbn [negb].
  - apply IH. intros _. apply Snoc.
  - intros _ _. apply Snoc.
Qed.

End TokenizerInvariants.

(** [next_tok] only takes characters from the front of the stream: the
    stream it leaves is a suffix of the stream it found, whether it
    returns or throws. *)
Theorem next_tok_leaves_a_suffix :
  forall (loc : locale) (g : tok_state),
  exists taken, wcin g = taken ++ wcin (snd (next_tok loc g)).
Proof.
  intros loc g. unfold next_tok, next_tok_from.
  destruct (read_loop_suffix loc (wcin g) scan_init) as (taken & E).
  exists taken. now destruct (_ && _).
Qed.

(** A token that [next_tok] returns before the end of the input and that
    is not an operator ends in a digit: a number that stops at its sign
    or at its radix point is not returned. *)
Theorem next_tok_number_ends_in_digit :
  forall (loc : locale) (g g' : tok_state) (tok : wstring),
    next_tok loc g = (Return tok, g') ->
    EndOfInput g' = false ->
    IsOperator g' = false ->
    ends_in_digit loc tok.
Proof.
  intros loc g g' tok. unfold next_tok, next_tok_from.
  pose proof (read_loop_valid loc (wcin g) scan_init) as V.
  destruct (read_loop loc scan_init (wcin g)) as [s vn eoi eof rest].
  cbn [end_str end_valid end_got_eoi end_eof end_is] in *.
  destruct (negb _ && negb vn && negb _) eqn:T; [discriminate|].
  intros E. inversion E; subst. cbn [EndOfInput IsOperator].
  intros E1 E2. rewrite E1, E2 in T. cbn in T.
  rewrite andb_true_r, negb_false_iff in T.
  apply V; [discriminate|exact T].
Qed.

Lemma next_tok_number_ends_in_digit_witness :
  ends_in_digit classic (L "42").
Proof.
  apply (next_tok_number_ends_in_digit classic
           {| EndOfInput := false; IsOperator := false; wcin := L "42 7" |}
           {| EndOfInput := false; IsOperator := false; wcin := L " 7" |}
           (L "42")); reflexivity.
Defined.

(** What [next_tok] throws, and when it returns the empty token. *)
Lemma next_tok_outcome (loc : locale) (g : tok_state) :
  match next_tok loc g with
  | (Throw e, g') =>
      EndOfInput g' = false /\
      exists s, e = InvalidExpression s /\ s <> [] /\ is_operator s = false
  | (Return tok, g') => tok = [] -> EndOfInput g' = true
  end.
Proof.
  unfold next_tok, next_tok_from.
  pose proof (read_loop_not_empty loc (wcin g) scan_init) as N.
  destruct (read_loop loc scan_init (wcin g)) as [s vn eoi eof rest].
  cbn [end_str end_valid end_got_eoi end_eof end_is] in *.
  specialize (N ltac:(discriminate)).
  destruct eof, eoi; cbn [orb negb andb]; try easy.
  destruct (EndOfInput g); cbn [negb andb]; [easy|].
  destruct vn, (is_operator s) eqn:O; cbn [negb andb];
    try (intros E; now destruct (N eq_refl eq_refl)).
  split; [reflexivity|]. exists s. repeat split; [now apply N|exact O].
Qed.

(** [next_tok] throws nothing but [InvalidExpression], with a text that
    is not empty and not an operator, and leaves [EndOfInput] false then;
    and it returns the empty token only with [EndOfInput] set, so that
    [main] passes over no token but the empty one at the end. *)
Theorem next_tok_throw_and_empty_token :
  forall (loc : locale) (g : tok_state),
    (forall e, fst (next_tok loc g) = Throw e ->
       EndOfInput (snd (next_tok loc g)) = false /\
       exists s, e = InvalidExpression s /\ s <> [] /\
                 is_operator s = false) /\
    (fst (next_tok loc g) = Return [] ->
       EndOfInput (snd (next_tok loc g)) = true).
Proof.
  intros loc g. pose proof (next_tok_outcome loc g) as T.
  destruct (next_tok loc g) as [[tok|e'] g']; cbn [fst snd]; split.
  - discriminate.
  - intros E. inversion E; subst. now apply T.
  - intros e E. inversion E; subst. exact T.
  - discriminate.
Qed.

Lemma next_tok_throw_and_empty_token_witness :
  (EndOfInput
     (snd (next_tok classic {| EndOfInput := false; IsOperator := false;
                               wcin := L "5. 2" |})) = false /\
   exists s, InvalidExpression (L "5.") = InvalidExpression s /\ s <> [] /\
             is_operator s = false) /\
  EndOfInput
    (snd (next_tok classic {| EndOfInput := false; IsOperator := false;
                              wcin := L " ;" |})) = true.
Proof.
  split.
  - apply (proj1 (next_tok_throw_and_empty_token classic
                    {| EndOfInput := false; IsOperator := false;
                       wcin := L "5. 2" |})).
    reflexivity.
  - apply (proj2 (next_tok_throw_and_empty_token classic
                    {| EndOfInput := false; IsOperator := false;
                       wcin := L " ;" |})).
    reflexivity.
Defined.

(** White space in front of a lexeme changes nothing: [next_tok] does on
    the stream what it does on the stream without it. *)
Theorem next_tok_skips_leading_white_space :
  forall (loc : locale) (eoi isop : bool) (ws s : list wchar_t),
    forallb (blank loc) ws = true ->
    next_tok loc {| EndOfInput := eoi; IsOperator := isop; wcin := ws ++ s |}
    = next_tok loc {| EndOfInput := eoi; IsOperator := isop; wcin := s |}.
Proof.
  intros loc eoi isop ws s B. unfold next_tok, next_tok_from.
  cbn [wcin EndOfInput]. now rewrite read_loop_blanks.
Qed.

Lemma next_tok_skips_leading_white_space_witness :
  next_tok classic {| EndOfInput := false; IsOperator := false;
                      wcin := L "  " ++ L "12 +" |}
  = next_tok classic {| EndOfInput := false; IsOperator := false;
                        wcin := L "12 +" |}.
Proof.
  apply (next_tok_skips_leading_white_space classic false false
           (L "  ") (L "12 +")).
  reflexivity.
Defined.

(** A [*] or [/] that starts a lexeme is the whole lexeme, whatever comes
    after it; a [+] or [-] that starts a lexeme and has a digit directly
    after it is the sign of a number: the text that [next_tok] returns or
    rejects begins with the sign and the digit, and is not an operator. *)
Theorem next_tok_operator_or_sign :
  forall (loc : locale) (eoi isop : bool) (c : wchar_t)
         (rest : list wchar_t),
    (c = MULT \/ c = DIV ->
     next_tok loc {| EndOfInput := eoi; IsOperator := isop;
                     wcin := c :: rest |}
     = (Return [c],
        {| EndOfInput := eoi; IsOperator := true; wcin := rest |})) /\
    (c = MINUS \/ c = PLUS ->
     forall d rest', rest = d :: rest' -> digit loc d = true ->
       let r := next_tok loc {| EndOfInput := eoi; IsOperator := isop;
                                wcin := c :: rest |} in
       IsOperator (snd r) = false /\
       exists t, fst r = Return (c :: d :: t) \/
                 fst r = Throw (InvalidExpression (c :: d :: t))).
Proof.
  intros loc eoi isop c rest. split.
  - intros [->| ->]; destruct eoi; reflexivity.
  - intros Hc d rest' -> D r. subst r.
    unfold next_tok, next_tok_from. cbn [wcin EndOfInput].
    rewrite read_loop_sign by (destruct Hc; subst; reflexivity).
    rewrite read_loop_digit by exact D. cbn [str got_radixpt app].
    destruct (read_loop_extends loc rest'
                {| str := [c; d]; got_radixpt := false;
                   is_valid_num := true |}) as (t & E).
    cbn [str app] in E. rewrite E.
    assert (O : is_operator (c :: d :: t) = false).
    { apply not_true_is_false. intros O.
      apply is_operator_single in O. now destruct O as (x & O & _). }
    rewrite O. destruct (_ && _); cbn [fst snd IsOperator];
      (split; [reflexivity|]); exists t; [now right|now left].
Qed.

Lemma next_tok_operator_or_sign_witness :
  next_tok classic {| EndOfInput := false; IsOperator := false;
                      wcin := MULT :: L "5 +" |}
  = (Return [MULT],
     {| EndOfInput := false; IsOperator := true; wcin := L "5 +" |}) /\
  IsOperator
    (snd (next_tok classic {| EndOfInput := false; IsOperator := false;
                              wcin := MINUS :: L "5 +" |})) = false.
Proof.
  split.
  - apply (proj1 (next_tok_operator_or_sign classic false false MULT
                    (L "5 +"))).
    now left.
  - apply (proj2 (next_tok_operator_or_sign classic false false MINUS
                    (L "5 +")) (or_introl eq_refl) 53 (L " +")
             eq_refl eq_refl).
Defined.

(** * Further properties of the automaton *)

Section Outcomes.

Variable loc : locale.
Variable v : bool.

(** The trace lines hold no result and nothing goes to [wcerr] inside the
    loop. *)
Ltac trace_only :=
  cbn [snd wcout wcerr say with_mem filter is_value];
  rewrite ?filter_app; cbn [filter is_value];
  rewrite ?filter_app, ?print_stack_no_value, ?app_nil_r;
  cbn [filter is_value]; rewrite ?app_nil_r; try reflexivity.

Lemma on_number_output (tok : wstring) (m : machine) :
  filter is_value (wcout (snd (on_number loc v tok m)))
  = filter is_value (wcout m) /\
  wcerr (snd (on_number loc v tok m)) = wcerr m.
Proof.
  unfold on_number, verbose.
  destruct (_ && _), v; split; trace_only.
Qed.

Lemma on_operator_output (tok : wstring) (m : machine) :
  filter is_value (wcout (snd (on_operator v tok m)))
  = filter is_value (wcout m) /\
  wcerr (snd (on_operator v tok m)) = wcerr m.
Proof.
  unfold on_operator, verbose. destruct v; cbn [with_mem mem say];
    (destruct (empty (mem m)); [split; trace_only|]);
    (destruct (empty (pop_back (mem m))); [split; trace_only|]);
    (destruct (_ && _); split; trace_only).
Qed.

Lemma loop_output (fuel : nat) :
  forall m,
    filter is_value (wcout (snd (loop loc v fuel m)))
    = filter is_value (wcout m) /\
    wcerr (snd (loop loc v fuel m)) = wcerr m.
Proof.
  induction fuel as [|fuel IH]; intros m; cbn [loop].
  - now destruct (EndOfInput (io m)).
  - destruct (EndOfInput (io m)); [now split|].
    destruct (next_tok loc (io m)) as [[tok|e] g]; [|now split].
    destruct (negb (EndOfInput g) || negb (empty tok)); [|apply (IH (with_io m g))].
    destruct (negb (IsOperator g)).
    + pose proof (on_number_output tok (with_io m g)) as [O1 O2].
      destruct (on_number loc v tok (with_io m g)) as [[u|e] m'];
        cbn [snd] in *; [|now split].
      destruct (IH m') as [I1 I2].
      split; [rewrite I1; exact O1|rewrite I2; exact O2].
    + pose proof (on_operator_output tok (with_io m g)) as [O1 O2].
      destruct (on_operator v tok (with_io m g)) as [[u|e] m'];
        cbn [snd] in *; [|now split].
      destruct (IH m') as [I1 I2].
      split; [rewrite I1; exact O1|rewrite I2; exact O2].
Qed.

Lemma on_number_throws (tok : wstring) (m : machine) (e : exn) :
  fst (on_number loc v tok m) = Throw e ->
  e = runtime_error "Could not convert to number".
Proof.
  unfold on_number. destruct (_ && _); cbn [fst]; congruence.
Qed.

Lemma on_operator_throws (tok : wstring) (m : machine) (e : exn) :
  fst (on_operator v tok m) = Throw e ->
  e = InvalidInput [] \/ exists x, e = DivByZero x.
Proof.
  unfold on_operator.
  repeat match goal with
         | |- context [if ?b then _ else _] => destruct b
         end; cbn [fst]; intros E; inversion E; eauto.
Qed.

Lemma loop_raises (fuel : nat) :
  forall m e,
    fst (loop loc v fuel m) = Raised e -> thrown_by_program e.
Proof.
  induction fuel as [|fuel IH]; intros m e; cbn [loop].
  - destruct (EndOfInput (io m)); discriminate.
  - destruct (EndOfInput (io m)); [discriminate|].
    pose proof (next_tok_outcome loc (io m)) as T.
    destruct (next_tok loc (io m)) as [[tok|e'] g].
    + destruct (negb (EndOfInput g) || negb (empty tok)); [|apply IH].
      destruct (negb (IsOperator g)).
      * pose proof (on_number_throws tok (with_io m g)) as N.
        destruct (on_number loc v tok (with_io m g)) as [[u|e''] m'];
          cbn [fst] in *; [apply IH|].
        intros E. inversion E; subst. unfold thrown_by_program.
        right; right; right. now apply N.
      * pose proof (on_operator_throws tok (with_io m g)) as N.
        destruct (on_operator v tok (with_io m g)) as [[u|e''] m'];
          cbn [fst] in *; [apply IH|].
        intros E. inversion E; subst. unfold thrown_by_program.
        destruct (N e eq_refl) as [->|X]; [right; now left|right; right; now left].
    + cbn [fst]. intros E. inversion E; subst. left. exact (proj2 T).
Qed.

Lemma loop_never_undefined (fuel : nat) :
  forall m, fst (loop loc v fuel m) <> Undefined.
Proof.
  induction fuel as [|fuel IH]; intros m; cbn [loop].
  - destruct (EndOfInput (io m)); discriminate.
  - destruct (EndOfInput (io m)); [discriminate|].
    destruct (next_tok loc (io m)) as [[tok|e] g]; [|discriminate].
    destruct (negb (EndOfInput g) || negb (empty tok)); [|apply IH].
    destruct (if negb (IsOperator g) then on_number loc v tok (with_io m g)
              else on_operator v tok (with_io m g)) as [[u|e] m'];
      [apply IH|discriminate].
Qed.

Lemma try_block_raises (fuel : nat) (m : machine) (e : exn) :
  fst (try_block loc v fuel m) = Raised e -> thrown_by_program e.
Proof.
  unfold try_block. pose proof (loop_raises fuel m) as R.
  destruct (loop loc v fuel m) as [[|e'| |] m']; cbn [fst] in *.
  - unfold print_result.
    repeat match goal with
           | |- context [if ?b then _ else _] => destruct b
           end; discriminate.
  - intros E. inversion E; subst. now apply R.
  - discriminate.
  - discriminate.
Qed.

End Outcomes.

(** How a run of [main] ends, and what it has written then. *)
Lemma main_outcome :
  forall (loc : locale) (v : bool) (input : list wchar_t),
    let r := main loc v input in
    match fst r with
    | Finished =>
        exists x, filter is_value (wcout (snd r)) = [SayValue x] /\
          ((wcerr (snd r) = [] /\ mem (snd r) = []) \/
           (wcerr (snd r) = [Improper v] /\ mem (snd r) <> []))
    | Raised e =>
        filter is_value (wcout (snd r)) = [] /\ wcerr (snd r) = [Report e]
    | Undefined =>
        filter is_value (wcout (snd r)) = [] /\ wcerr (snd r) = [] /\
        mem (snd r) = []
    | OutOfFuel => False
    end.
Proof.
  intros loc v input r. subst r. unfold main, try_block.
  pose proof (loop_output loc v (S (List.length input)) (start input))
    as [O E].
  pose proof (loop_never_undefined loc v (S (List.length input))
                (start input)) as U.
  pose proof (loop_enough_fuel loc v (S (List.length input)) (start input)
                (or_intror (Nat.lt_succ_diag_r _))) as F.
  destruct (loop loc v (S (List.length input)) (start input))
    as [[|e| |] m]; cbn [fst snd start wcout wcerr filter] in *.
  - unfold print_result.
    destruct (empty (mem (verbose v m [SayResultLabel]))) eqn:Em;
      rewrite mem_verbose in *.
    + cbn [fst snd]. rewrite wcerr_verbose, E.
      destruct v; cbn [verbose say wcout mem]; rewrite ?filter_app, O;
        repeat split; now destruct (mem m).
    + cbn [with_mem say mem]. rewrite mem_verbose.
      destruct (empty (pop_back (mem m))) eqn:Ep; cbn [negb fst snd].
      * exists (back (mem m)). cbn [with_mem say wcout wcerr mem].
        rewrite wcerr_verbose, E.
        destruct v; cbn [verbose say wcout]; rewrite !filter_app, O;
          (split; [reflexivity|]); left; split; try reflexivity;
          now destruct (pop_back (mem m)).
      * exists (back (mem m)).
        destruct v; cbn [verbose complain with_mem say wcout wcerr mem];
          rewrite ?wcerr_verbose, E, !filter_app, ?print_stack_no_value, O;
          (split; [reflexivity|]); right; split; try reflexivity;
          now destruct (pop_back (mem m)).
  - cbn [complain wcout wcerr]. now rewrite O, E.
  - now destruct U.
  - now destruct F.
Qed.

(** A run of [main] ends in exactly one of three ways. It prints one
    result and then either nothing more, the stack being empty, or the
    warning, values being left on the stack. Or an exception leaves the
    loop: no result is printed and its handler writes the only line on
    [wcerr]. Or the stack is empty after the loop and the final
    [mem.back()] is undefined, nothing having been printed as a result or
    reported. The loop always ends. *)
Theorem main_prints_a_result_or_reports :
  forall (loc : locale) (v : bool) (input : list wchar_t),
    let r := main loc v input in
    match fst r with
    | Finished =>
        exists x, filter is_value (wcout (snd r)) = [SayValue x] /\
          ((wcerr (snd r) = [] /\ mem (snd r) = []) \/
           (wcerr (snd r) = [Improper v] /\ mem (snd r) <> []))
    | Raised e =>
        filter is_value (wcout (snd r)) = [] /\ wcerr (snd r) = [Report e]
    | Undefined =>
        filter is_value (wcout (snd r)) = [] /\ wcerr (snd r) = [] /\
        mem (snd r) = []
    | OutOfFuel => False
    end.
Proof.
  intros loc v input. apply main_outcome.
Qed.

(** Whatever the input, an exception that ends [main] is one of four:
    [InvalidExpression] with a text that is not empty, [InvalidInput]
    without a text, [DivByZero], or the failed conversion of a number. *)
Theorem main_raises_only :
  forall (loc : locale) (v : bool) (input : list wchar_t) (e : exn),
    fst (main loc v input) = Raised e -> thrown_by_program e.
Proof.
  intros loc v input e. apply try_block_raises.
Qed.

Lemma main_raises_only_witness :
  thrown_by_program (InvalidExpression (L "5.")).
Proof.
  apply (main_raises_only classic false (L "1 5. +;")). reflexivity.
Defined.

(** The handler of [InvalidInput] prints the text of the exception after
    a colon when there is one; the program throws [InvalidInput] only
    without a text, so every run that ends in it writes the bare line
    ["Invalid input"]. *)
Theorem invalid_input_is_reported_without_text :
  forall (loc : locale) (v : bool) (input : list wchar_t) (s : wstring),
    fst (main loc v input) = Raised (InvalidInput s) ->
    handler (InvalidInput s) = [Narrow "Invalid input"; Endl].
Proof.
  intros loc v input s E. apply try_block_raises in E.
  destruct E as [(t & E & _)|[E|[(x & E)|E]]]; try discriminate E.
  now inversion E.
Qed.

Lemma invalid_input_is_reported_without_text_witness :
  handler (InvalidInput []) = [Narrow "Invalid input"; Endl].
Proof.
  apply (invalid_input_is_reported_without_text classic false (L "2 *;")).
  reflexivity.
Defined.

(** ** Conversion in the classic locale *)

Lemma classic_extract_eof (s : wstring) :
  ex_eof (classic_extract s) = empty (unread s).
Proof.
  unfold classic_extract, unread.
  destruct (match s with
            | [] => (false, s)
            | c :: r => if c =? MINUS then (true, r)
                        else if c =? PLUS then (false, r) else (false, s)
            end) as [neg s1] eqn:E1.
  assert (S1 : s1 = match s with
                    | [] => s
                    | c :: r => if c =? MINUS then r
                                else if c =? PLUS then r else s
                    end).
  { destruct s as [|c r]; [now inversion E1|].
    destruct (c =? MINUS); [now inversion E1|].
    destruct (c =? PLUS); now inversion E1. }
  rewrite <- S1. clear E1 S1.
  destruct (span_digits s1) as [ip s2]. cbn [snd].
  destruct s2 as [|c r].
  - destruct (empty (ip ++ [])); [reflexivity|].
    now destruct (PrimFloat.eqb _ _).
  - destruct (c =? RADIX_POINT).
    + destruct (span_digits r) as [fp s3]. cbn [snd].
      destruct (empty (ip ++ fp)); [reflexivity|].
      now destruct (PrimFloat.eqb _ _).
    + destruct (empty (ip ++ [])); [reflexivity|].
      now destruct (PrimFloat.eqb _ _).
Qed.

Lemma classic_digit_plain (c : wchar_t) :
  classic_isdigit c = true ->
  (c =? MINUS) = false /\ (c =? PLUS) = false /\ (c =? RADIX_POINT) = false.
Proof.
  unfold classic_isdigit, MINUS, PLUS, RADIX_POINT.
  rewrite andb_true_iff, !N.leb_le, !N.eqb_neq. lia.
Qed.

Lemma span_digits_all (ds : wstring) :
  forallb classic_isdigit ds = true -> span_digits ds = (ds, []).
Proof.
  induction ds as [|c ds IH]; [reflexivity|].
  cbn [forallb span_digits]. rewrite andb_true_iff. intros [D F].
  now rewrite D, IH.
Qed.

Lemma span_digits_point (ds fs : wstring) :
  forallb classic_isdigit ds = true ->
  span_digits (ds ++ RADIX_POINT :: fs) = (ds, RADIX_POINT :: fs).
Proof.
  induction ds as [|c ds IH]; [reflexivity|].
  cbn [forallb span_digits app]. rewrite andb_true_iff. intros [D F].
  now rewrite D, IH.
Qed.

(** The classic extraction takes the whole of a numeric text. *)
Lemma unread_numeric (s : wstring) (rp : bool) :
  numeric s rp -> unread s = [].
Proof.
  intros (sg & ds & fs & Hsg & Hd & Hf & ->).
  assert (Body : forall body,
             body = ds ++ (if rp then RADIX_POINT :: fs else []) ->
             match snd (span_digits body) with
             | [] => snd (span_digits body)
             | c :: r => if c =? RADIX_POINT then snd (span_digits r)
                         else snd (span_digits body)
             end = []).
  { intros body ->. destruct rp.
    - rewrite span_digits_point by exact Hd. cbn [snd].
      rewrite N.eqb_refl. now rewrite span_digits_all.
    - rewrite app_nil_r, span_digits_all by exact Hd. reflexivity. }
  unfold unread. destruct Hsg as [->|[->| ->]]; cbn [app].
  - destruct (ds ++ (if rp then RADIX_POINT :: fs else [])) as [|c r] eqn:E.
    + now apply Body.
    + assert (P : (c =? MINUS) = false /\ (c =? PLUS) = false).
      { destruct ds as [|d ds'].
        - destruct rp; inversion E. now split.
        - inversion E; subst. cbn [forallb] in Hd.
          apply andb_true_iff in Hd. destruct Hd as [D _].
          destruct (classic_digit_plain _ D) as (A & B & _). now split. }
      destruct P as [-> ->]. rewrite <- E. now apply Body.
  - rewrite N.eqb_refl. now apply Body.
  - change (PLUS =? MINUS) with false. rewrite N.eqb_refl. now apply Body.
Qed.

(** The loop of [next_tok] in the classic locale is left with a numeric
    text, or with an operator, or on its way to [InvalidExpression]. *)
Lemma read_loop_numeric (ist : list wchar_t) :
  forall st,
    numeric (str st) (got_radixpt st) ->
    let r := read_loop classic st ist in
    (exists rp, numeric (end_str r) rp) \/
    is_operator (end_str r) = true \/
    (end_valid r = false /\ end_eof r = false /\ end_got_eoi r = false /\
     is_operator (end_str r) = false).
Proof.
  induction ist as [|c ist IH]; intros st H; [left; now exists (got_radixpt st)|].
  assert (Here : (exists rp, numeric (str st) rp)) by now exists (got_radixpt st).
  assert (Hnil : str st = [] -> got_radixpt st = false).
  { intros E. destruct H as (sg & ds & fs & _ & _ & _ & H).
    rewrite E in H. destruct (got_radixpt st); [|reflexivity].
    destruct sg, ds; discriminate H. }
  cbn zeta. cbn [read_loop].
  destruct (c =? EOI) eqn:E1; [now left|].
  destruct ((c =? MINUS) || (c =? PLUS)) eqn:E2.
  { destruct (str st) as [|x s'] eqn:Es; cbn [empty negb]; [|now left].
    apply IH. cbn [str got_radixpt app]. rewrite (Hnil eq_refl).
    exists [c], [], []. repeat split.
    apply orb_true_iff in E2. rewrite !N.eqb_eq in E2.
    destruct E2 as [->| ->]; [right; now left|right; now right]. }
  destruct (N.eqb_spec c RADIX_POINT) as [->|E3].
  { destruct (got_radixpt st) eqn:G; [now left|].
    apply IH. cbn [str got_radixpt].
    destruct H as (sg & ds & fs & Hsg & Hd & Hf & H).
    rewrite app_nil_r in H. rewrite H.
    destruct (empty (sg ++ ds)) eqn:Em.
    - destruct sg, ds; try discriminate Em.
      exists [], [ZERO], []. repeat split. now left.
    - exists sg, ds, []. repeat split; try assumption.
      now rewrite <- app_assoc. }
  destruct ((c =? MULT) || (c =? DIV)) eqn:E4.
  { destruct (str st) as [|x s'] eqn:Es; cbn [empty negb]; [|now left].
    right; left. cbn [stop end_str app].
    apply orb_true_iff in E4. rewrite !N.eqb_eq in E4.
    destruct E4 as [->| ->]; reflexivity. }
  cbn [classic isspace isdigit].
  destruct (classic_isspace c).
  { destruct (str st) as [|x s'] eqn:Es; cbn [empty]; [|now left].
    apply IH. now rewrite Es. }
  destruct (classic_isdigit c) eqn:D; cbn [negb].
  - apply IH. cbn [str got_radixpt].
    destruct H as (sg & ds & fs & Hsg & Hd & Hf & H).
    destruct (got_radixpt st).
    + exists sg, ds, (fs ++ [c]). repeat split; try assumption.
      * rewrite forallb_app, Hf. cbn. now rewrite D.
      * rewrite H. now rewrite <- !app_assoc.
    + exists sg, (ds ++ [c]), []. repeat split; try assumption.
      * rewrite forallb_app, Hd. cbn. now rewrite D.
      * rewrite H, !app_nil_r. now rewrite <- app_assoc.
  - right; right. cbn [stop end_valid end_eof end_got_eoi end_str].
    repeat split. apply orb_false_iff in E2, E4.
    rewrite !N.eqb_neq in E2, E4. apply is_operator_snoc; tauto.
Qed.

(** A token that reaches the conversion in the classic locale is taken
    whole by the extraction, so [ss.eof()] holds. *)
Lemma next_tok_classic_convertible (g g' : tok_state) (tok : wstring) :
  EndOfInput g = false ->
  next_tok classic g = (Return tok, g') ->
  IsOperator g' = false ->
  ex_eof (classic_extract tok) = true.
Proof.
  intros E. unfold next_tok, next_tok_from. rewrite E.
  pose proof (read_loop_numeric (wcin g) scan_init) as N.
  destruct (read_loop classic scan_init (wcin g)) as [s vn eoi eof rest].
  cbn [end_str end_valid end_got_eoi end_eof end_is] in *.
  destruct N as [(rp & N)|[O|(-> & -> & -> & O)]].
  - exists [], [], []. repeat split. now left.
  - intros T I. destruct (_ && _); inversion T; subst.
    rewrite classic_extract_eof, (unread_numeric _ _ N). reflexivity.
  - intros T I. destruct (_ && _); inversion T; subst.
    cbn [IsOperator] in I. congruence.
  - rewrite O. cbn. discriminate.
Qed.

Lemma loop_classic_converts (v : bool) (fuel : nat) :
  forall m what, fst (loop classic v fuel m) <> Raised (runtime_error what).
Proof.
  induction fuel as [|fuel IH]; intros m what; cbn [loop].
  - destruct (EndOfInput (io m)); discriminate.
  - destruct (EndOfInput (io m)) eqn:E; [discriminate|].
    pose proof (next_tok_outcome classic (io m)) as T.
    pose proof (next_tok_classic_convertible (io m)) as C.
    destruct (next_tok classic (io m)) as [[tok|e] g].
    + destruct (negb (EndOfInput g) || negb (empty tok)); [|apply IH].
      destruct (IsOperator g) eqn:O; cbn [negb].
      * pose proof (on_operator_throws v tok (with_io m g)) as N.
        destruct (on_operator v tok (with_io m g)) as [[u|e] m'];
          cbn [fst] in *; [apply IH|].
        intros X. inversion X; subst.
        destruct (N _ eq_refl) as [N'|(x & N')]; discriminate N'.
      * unfold on_number. cbn [classic extract].
        rewrite (C g tok E eq_refl O), andb_false_r. apply IH.
    + cbn [fst]. destruct T as (_ & s & -> & _). discriminate.
Qed.

(** In the classic locale, which is the one the program runs in, the
    conversion of a token that [next_tok] passed as a number never fails:
    no input ends [main] in the ["Could not convert to number"] error. *)
Theorem main_classic_never_fails_to_convert :
  forall (v : bool) (input : list wchar_t) (what : string),
    fst (main classic v input) <> Raised (runtime_error what).
Proof.
  intros v input what. unfold main, try_block.
  pose proof (loop_classic_converts v (S (List.length input)) (start input)
                what) as H.
  destruct (loop classic v (S (List.length input)) (start input))
    as [[|e| |] m]; cbn [fst] in *; try discriminate.
  - unfold print_result.
    repeat match goal with
           | |- context [if ?b then _ else _] => destruct b
           end; discriminate.
  - exact H.
Qed.

(** ** The loop ends, and what is behind the terminator is not read *)

(** Every call of [next_tok] that returns without ending the input takes
    at least one character, so the loop of [main] makes at most as many
    turns as the stream has characters, and one more. *)
Theorem loop_ends_within_the_input :
  (forall (loc : locale) (g g' : tok_state) (tok : wstring),
      EndOfInput g = false ->
      next_tok loc g = (Return tok, g') ->
      EndOfInput g' = true \/
      (List.length (wcin g') < List.length (wcin g))%nat) /\
  (forall (loc : locale) (v : bool) (fuel : nat) (m : machine),
      (List.length (wcin (io m)) < fuel)%nat ->
      fst (loop loc v fuel m) <> OutOfFuel).
Proof.
  split.
  - intros loc g g' tok. apply next_tok_progress.
  - intros loc v fuel m H. apply loop_enough_fuel. now right.
Qed.

Lemma loop_ends_within_the_input_witness :
  fst (loop classic false 7 (start (L "3 4 +;"))) <> OutOfFuel.
Proof.
  apply (proj2 loop_ends_within_the_input classic false 7%nat
           (start (L "3 4 +;"))).
  cbn. lia.
Defined.

Section BehindTheTerminator.

Variable loc : locale.

Lemma read_loop_until_terminator (r1 r2 w : list wchar_t) :
  forall st,
    let a := read_loop loc st (w ++ EOI :: r1) in
    let b := read_loop loc st (w ++ EOI :: r2) in
    end_str a = end_str b /\ end_valid a = end_valid b /\
    end_got_eoi a = end_got_eoi b /\
    end_eof a = false /\ end_eof b = false /\
    (end_got_eoi a = true \/ same_until_terminator (end_is a) (end_is b)).
Proof.
  induction w as [|c w IH]; intros st; cbn zeta.
  - cbn. repeat split; now left.
  - cbn [app read_loop].
    assert (Back : same_until_terminator (c :: w ++ EOI :: r1)
                                         (c :: w ++ EOI :: r2))
      by now exists (c :: w), r1, r2.
    assert (Here : same_until_terminator (w ++ EOI :: r1) (w ++ EOI :: r2))
      by now exists w, r1, r2.
    repeat match goal with
           | |- context [if ?b then _ else _] => destruct b
           end;
      cbn [stop end_str end_valid end_got_eoi end_eof end_is];
      try (repeat split; solve [now left | now right]);
      apply IH.
Qed.

Lemma next_tok_alike (g1 g2 : tok_state) :
  EndOfInput g1 = false -> alike g1 g2 ->
  fst (next_tok loc g1) = fst (next_tok loc g2) /\
  alike (snd (next_tok loc g1)) (snd (next_tok loc g2)).
Proof.
  intros E (E1 & E2 & [E3|(w & r1 & r2 & A & B)]); [congruence|].
  unfold next_tok, next_tok_from. rewrite A, B, <- E1, E.
  pose proof (read_loop_until_terminator r1 r2 w scan_init) as H.
  cbn zeta in H.
  destruct (read_loop loc scan_init (w ++ EOI :: r1)) as [s1 v1 e1 f1 i1].
  destruct (read_loop loc scan_init (w ++ EOI :: r2)) as [s2 v2 e2 f2 i2].
  cbn [end_str end_valid end_got_eoi end_eof end_is] in *.
  destruct H as (-> & -> & -> & -> & -> & H). cbn [orb].
  destruct (_ && _); cbn [fst snd]; (split; [reflexivity|]);
    unfold alike; cbn [EndOfInput IsOperator wcin];
    (repeat split; destruct H as [->|H]; [now left|now right]).
Qed.

Variable v : bool.

(** The steps of the automaton do not look at the stream. *)
Lemma on_number_with_io (tok : wstring) (m : machine) (g : tok_state) :
  on_number loc v tok (with_io m g)
  = (fst (on_number loc v tok m), with_io (snd (on_number loc v tok m)) g).
Proof.
  unfold on_number, verbose. destruct (_ && _), v; reflexivity.
Qed.

Lemma on_operator_with_io (tok : wstring) (m : machine) (g : tok_state) :
  on_operator v tok (with_io m g)
  = (fst (on_operator v tok m), with_io (snd (on_operator v tok m)) g).
Proof.
  unfold on_operator, verbose. destruct v; cbn [with_io with_mem mem say];
    (destruct (empty (mem m)); [reflexivity|]);
    (destruct (empty (pop_back (mem m))); [reflexivity|]);
    (destruct (_ && _); reflexivity).
Qed.

Lemma print_result_with_io (m : machine) (g : tok_state) :
  print_result v (with_io m g)
  = (fst (print_result v m), with_io (snd (print_result v m)) g).
Proof.
  unfold print_result, verbose. destruct v; cbn [with_io with_mem mem say];
    (destruct (empty (mem m)); [reflexivity|]);
    (destruct (negb (empty (pop_back (mem m)))); reflexivity).
Qed.

Lemma loop_alike (fuel : nat) :
  forall m g2,
    alike (io m) g2 ->
    fst (loop loc v fuel (with_io m g2)) = fst (loop loc v fuel m) /\
    exists g2',
      snd (loop loc v fuel (with_io m g2))
      = with_io (snd (loop loc v fuel m)) g2'.
Proof.
  induction fuel as [|fuel IH]; intros m g2 A; cbn [loop with_io io].
  - destruct A as (<- & _). destruct (EndOfInput (io m));
      (split; [reflexivity|now exists g2]).
  - pose proof A as (E1 & _). rewrite <- E1.
    destruct (EndOfInput (io m)) eqn:E; [split; [reflexivity|now exists g2]|].
    destruct (next_tok_alike (io m) g2 E A) as (T1 & T2).
    destruct (next_tok loc (io m)) as [r1 g1'].
    destruct (next_tok loc g2) as [r2 g2'].
    cbn [fst snd] in T1, T2. subst r2.
    destruct r1 as [tok|e]; [|split; [reflexivity|now exists g2']].
    pose proof T2 as (E1' & E2' & _). rewrite <- E1', <- E2'.
    change (with_io (with_io m g2) g2') with (with_io (with_io m g1') g2').
    destruct (negb (EndOfInput g1') || negb (empty tok));
      [|apply (IH (with_io m g1') g2' T2)].
    destruct (negb (IsOperator g1')).
    + rewrite on_number_with_io.
      pose proof (io_on_number loc v tok (with_io m g1')) as I.
      destruct (on_number loc v tok (with_io m g1')) as [[u|e] m'];
        cbn [fst snd] in *; [|split; [reflexivity|now exists g2']].
      apply IH. now rewrite I.
    + rewrite on_operator_with_io.
      pose proof (io_on_operator v tok (with_io m g1')) as I.
      destruct (on_operator v tok (with_io m g1')) as [[u|e] m'];
        cbn [fst snd] in *; [|split; [reflexivity|now exists g2']].
      apply IH. now rewrite I.
Qed.

End BehindTheTerminator.

(** What stands behind the first terminator is never read: two inputs
    that agree up to a [;] end [main] the same way, with the same stack
    and the same output on [wcout] and [wcerr]. *)
Theorem main_ignores_what_follows_the_terminator :
  forall (loc : locale) (v : bool) (w r1 r2 : list wchar_t),
    let a := main loc v (w ++ EOI :: r1) in
    let b := main loc v (w ++ EOI :: r2) in
    fst a = fst b /\ mem (snd a) = mem (snd b) /\
    wcout (snd a) = wcout (snd b) /\ wcerr (snd a) = wcerr (snd b).
Proof.
  intros loc v w r1 r2 a b. subst a b. unfold main.
  set (i1 := w ++ EOI :: r1). set (i2 := w ++ EOI :: r2).
  assert (F1 : loop loc v (S (List.length i1)) (start i1)
               = loop loc v (S (List.length i2) + S (List.length i1))
                      (start i1)).
  { symmetry. apply loop_more_fuel, loop_enough_fuel.
    right. apply Nat.lt_succ_diag_r. }
  assert (F2 : loop loc v (S (List.length i2)) (start i2)
               = loop loc v (S (List.length i2) + S (List.length i1))
                      (start i2)).
  { rewrite Nat.add_comm. symmetry. apply loop_more_fuel, loop_enough_fuel.
    right. apply Nat.lt_succ_diag_r. }
  unfold try_block. rewrite F1, F2. clear F1 F2.
  destruct (loop_alike loc v (S (List.length i2) + S (List.length i1))
              (start i1)
              {| EndOfInput := false; IsOperator := false; wcin := i2 |})
    as (S1 & g2' & S2).
  { repeat split. right. now exists w, r1, r2. }
  change (with_io (start i1)
            {| EndOfInput := false; IsOperator := false; wcin := i2 |})
    with (start i2) in S1, S2.
  destruct (loop loc v _ (start i1)) as [st1 m1].
  destruct (loop loc v _ (start i2)) as [st2 m2].
  cbn [fst snd] in S1, S2. subst st2 m2.
  destruct st1; cbn [fst snd complain with_io mem wcout wcerr];
    try (repeat split; reflexivity).
  rewrite print_result_with_io. cbn [fst snd with_io mem wcout wcerr].
  repeat split.
Qed.

(** ** Two expressions in a row *)

Section InARow.

Variable loc : locale.
Hypothesis space_is_space : isspace loc SPACE = true.

(** The run without the verbose flag on two written expressions. *)
Lemma main_two_expr_calm (a b : expr) (x y : float) (tl : list wchar_t) :
  well_formed loc a = true -> well_formed loc b = true ->
  denote loc a = Some x -> denote loc b = Some y ->
  closing loc tl = true ->
  exists g,
    main loc false (postfix_text a ++ SPACE :: postfix_text b ++ tl)
    = (Finished,
       {| io := g; mem := [x]; wcout := [SayValue y];
          wcerr := [Improper false] |}).
Proof.
  intros Wa Wb Va Vb C.
  set (input := postfix_text a ++ SPACE :: postfix_text b ++ tl).
  destruct (loop_expr loc space_is_space a x Wa Va [] _ (start input)
              eq_refl (ends_lexeme_space loc space_is_space _)
              eq_refl eq_refl)
    as (ka & ga & Ra & Ha).
  apply (resumes_at_space loc space_is_space) in Ra. destruct Ra as [Ea Ia].
  destruct (loop_expr loc space_is_space b y Wb Vb [SPACE] tl
              (with_mem (with_io (start input) ga) ([] ++ [x])))
    as (kb & gb & Rb & Hb).
  { cbn [forallb]. now rewrite (blank_space loc space_is_space). }
  { now apply closing_ends_lexeme. }
  { exact Ea. }
  { exact Ia. }
  assert (F : exists k' g',
             loop loc false k' (start input)
             = (Finished, with_mem (with_io (start input) g') [x; y])).
  { destruct Rb as [[E I]|[E _]].
    - destruct (loop_closing loc false 0
                  (with_mem
                     (with_io (with_mem (with_io (start input) ga) [x]) gb)
                     [x; y]))
        as (g' & H'); [exact E|cbn [with_mem with_io io]; now rewrite I|].
      exists (ka + (kb + 1))%nat, g'. rewrite Ha, Hb. exact H'.
    - exists (ka + (kb + 0))%nat, gb. rewrite Ha, Hb.
      now apply loop_finished. }
  destruct F as (k' & g' & F).
  assert (T : loop loc false (S (List.length input)) (start input)
              = (Finished, with_mem (with_io (start input) g') [x; y])).
  { pose proof (loop_more_fuel loc false k' (start input)) as A1.
    rewrite F in A1.
    specialize (A1 ltac:(discriminate) (S (List.length input))).
    assert (A2 : loop loc false (k' + S (List.length input)) (start input)
                 = loop loc false (S (List.length input)) (start input)).
    { apply loop_more_fuel, loop_enough_fuel.
      right. apply Nat.lt_succ_diag_r. }
    rewrite <- A2, Nat.add_comm. exact A1. }
  exists g'. unfold main, try_block. fold input. rewrite T. reflexivity.
Qed.

End InARow.

(** Expressions compose on the stack: of two well-formed expressions
    written one after the other, the value of the second is printed as
    the result, the value of the first is left below it, and the run ends
    with the warning. *)
Theorem main_two_expressions_in_a_row :
  forall (loc : locale) (v : bool) (a b : expr) (x y : float)
         (tl : list wchar_t),
    isspace loc SPACE = true ->
    well_formed loc a = true -> well_formed loc b = true ->
    denote loc a = Some x -> denote loc b = Some y ->
    closing loc tl = true ->
    let r := main loc v (postfix_text a ++ SPACE :: postfix_text b ++ tl) in
    fst r = Finished /\
    filter is_value (wcout (snd r)) = [SayValue y] /\
    mem (snd r) = [x] /\
    wcerr (snd r) = [Improper v].
Proof.
  intros loc v a b x y tl Hsp Wa Wb Va Vb C r.
  destruct (main_two_expr_calm loc Hsp a b x y tl Wa Wb Va Vb C) as (g & M).
  destruct v; subst r; [|rewrite M; repeat split].
  pose proof (main_outcome loc true
                (postfix_text a ++ SPACE :: postfix_text b ++ tl)) as O.
  cbn zeta in O. unfold main in *.
  change (start (postfix_text a ++ SPACE :: postfix_text b ++ tl))
    with (quiet (start (postfix_text a ++ SPACE :: postfix_text b ++ tl)))
    in M.
  rewrite try_block_quiet in M.
  destruct (try_block loc true _ _) as [st m]. cbn [fst snd] in *.
  inversion M as [[Hst Hio Hmem Hout Herr]]. subst st.
  repeat split.
  destruct O as (z & _ & [[E _]|[E _]]); [|exact E].
  rewrite E in Herr. discriminate Herr.
Qed.

Lemma main_two_expressions_in_a_row_witness :
  let r := main classic false
             (postfix_text (natural "7") ++ SPACE ::
              postfix_text rpn_example ++ L ";") in
  fst r = Finished /\
  filter is_value (wcout (snd r)) = [SayValue 14] /\
  mem (snd r) = [7%float] /\
  wcerr (snd r) = [Improper false].
Proof.
  apply (main_two_expressions_in_a_row classic false (natural "7")
           rpn_example 7%float 14%float (L ";")); vm_compute; reflexivity.
Defined.

(** * A written expression and its value *)

(** ** The classic extraction reads a numeral as the number it spells *)

Lemma digits_value_decimal (ds : wstring) :
  forall acc : Z,
    fold_left (fun (a : Z) (c : wchar_t) => (10 * a + (Z.of_N c - 48))%Z)
              ds acc
    = (acc * 10 ^ Z.of_nat (List.length ds) + decimal ds)%Z.
Proof.
  induction ds as [|d ds IH]; intros acc.
  - cbn. lia.
  - cbn [fold_left decimal List.length]. rewrite IH, Nat2Z.inj_succ.
    rewrite Z.pow_succ_r by lia. unfold digit_value. lia.
Qed.

Lemma digits_value_is_decimal (ds : wstring) : digits_value ds = decimal ds.
Proof. unfold digits_value. rewrite digits_value_decimal. lia. Qed.

Lemma classic_digits (ds : wstring) :
  forallb (digit classic) ds = true -> forallb classic_isdigit ds = true.
Proof.
  induction ds as [|d ds IH]; [reflexivity|].
  cbn [forallb]. rewrite !andb_true_iff. intros [D F].
  split; [|now apply IH].
  unfold digit in D. now apply andb_true_iff in D.
Qed.

(** The digits in front of the radix point, or all of them. *)
Lemma span_digits_whole (w : wstring) (f : option wstring) :
  forallb classic_isdigit w = true ->
  span_digits
    (w ++ match f with Some fr => RADIX_POINT :: fr | None => [] end)
  = (w, match f with Some fr => RADIX_POINT :: fr | None => [] end).
Proof.
  intros Hw. destruct f as [fr|]; [now apply span_digits_point|].
  rewrite app_nil_r. now apply span_digits_all.
Qed.

(** What [ss >> n] stores for a well-formed numeral: the [double] that
    the numeral stands for, or the largest finite [double] with its sign
    when the numeral is beyond the range; the whole text is taken. *)
Lemma classic_extract_numeral (n : numeral) :
  well_formed_numeral classic n = true ->
  classic_extract (numeral_text n)
  = {| ex_value :=
         if numeral_finite n then numeral_double n
         else if numeral_negative n then (- DBL_MAX)%float else DBL_MAX;
       ex_good := false;
       ex_eof := true |}.
Proof.
  destruct n as [sg w f].
  unfold well_formed_numeral, numeral_text, numeral_finite, numeral_double,
    numeral_magnitude, numeral_negative, numeral_digits_behind.
  cbn [num_sign num_whole num_fraction].
  rewrite !andb_true_iff, negb_true_iff. intros [[[Hs Nw] Fw] Ff].
  apply classic_digits in Fw.
  assert (Ff' : match f with
                | Some fr => forallb classic_isdigit fr
                | None => true
                end = true).
  { destruct f as [fr|]; [|reflexivity].
    apply andb_true_iff in Ff. now apply classic_digits. }
  pose proof (span_digits_whole w f Fw) as S1.
  assert (Ew : empty (w ++ match f with Some fr => fr | None => [] end)
               = false) by (destruct w; [discriminate Nw|reflexivity]).
  assert (Finish : forall neg : bool,
             (let '(ip, s2) :=
                span_digits
                  (w ++ match f with
                        | Some fr => RADIX_POINT :: fr
                        | None => []
                        end) in
              let '(fp, s3) :=
                match s2 with
                | c :: r => if c =? RADIX_POINT then span_digits r
                            else ([], s2)
                | [] => ([], s2)
                end in
              let eof := empty s3 in
              let signed (x : float) := if neg then (- x)%float else x in
              if empty (ip ++ fp) then
                {| ex_value := 0%float; ex_good := false; ex_eof := eof |}
              else
                let v := nearest_double (digits_value (ip ++ fp))
                                        (List.length fp) in
                if PrimFloat.eqb v infinity then
                  {| ex_value := signed DBL_MAX; ex_good := false;
                     ex_eof := eof |}
                else
                  {| ex_value := signed v; ex_good := negb eof;
                     ex_eof := eof |})
             = let v := nearest_double
                          (decimal
                             (w ++ match f with Some fr => fr | None => [] end))
                          (List.length
                             match f with Some fr => fr | None => [] end) in
               {| ex_value :=
                    if negb (PrimFloat.eqb v infinity)
                    then if neg then (- v)%float else v
                    else if neg then (- DBL_MAX)%float else DBL_MAX;
                  ex_good := false; ex_eof := true |}).
  { intros neg. rewrite S1. destruct f as [fr|].
    - rewrite N.eqb_refl, span_digits_all by exact Ff'.
      rewrite Ew, digits_value_is_decimal. cbn [empty negb].
      now destruct (PrimFloat.eqb _ infinity).
    - rewrite Ew, digits_value_is_decimal. cbn [empty negb].
      now destruct (PrimFloat.eqb _ infinity). }
  unfold classic_extract. destruct sg as [c|].
  - apply orb_true_iff in Hs. rewrite !N.eqb_eq in Hs.
    destruct Hs as [->| ->]; cbn [app]; cbv beta iota.
    + rewrite N.eqb_refl. cbv beta iota. apply (Finish true).
    + change (PLUS =? MINUS) with false. rewrite N.eqb_refl.
      cbv beta iota. apply (Finish false).
  - cbn [app]. destruct w as [|d w']; [discriminate Nw|].
    cbn [forallb] in Fw. apply andb_true_iff in Fw. destruct Fw as [D Fw].
    destruct (classic_digit_plain d D) as (A & B & _).
    cbn [app]. cbv beta iota. rewrite A, B. cbv beta iota.
    apply (Finish false).
Qed.

Lemma written_well_formed (loc : locale) (e : expr) (text : wstring) :
  written loc e text -> well_formed loc e = true.
Proof.
  induction 1 as [n W|o a b ta tb ws1 ws2 _ IHa _ IHb]; [exact W|].
  cbn [well_formed]. now rewrite IHa, IHb.
Qed.

(** In the classic locale the numbers that the program converts are the
    numbers that the numerals stand for. *)
Lemma value_denote (e : expr) :
  forall x : float,
    well_formed classic e = true -> value e = Some x ->
    denote classic e = Some x.
Proof.
  induction e as [n|o a IHa b IHb]; intros x W V.
  - cbn [value denote well_formed] in *. unfold numeral_value.
    cbn [classic extract]. rewrite (classic_extract_numeral n W).
    cbn [ex_good ex_eof ex_value orb].
    destruct (numeral_finite n); [exact V|discriminate V].
  - cbn [value denote well_formed] in *.
    apply andb_true_iff in W. destruct W as [Wa Wb].
    destruct (value a) as [xa|]; [|discriminate V].
    destruct (value b) as [xb|]; [|discriminate V].
    rewrite (IHa xa Wa eq_refl), (IHb xb Wb eq_refl). exact V.
Qed.

(** ** Running an expression written with any white space *)

Section Written.

Variable loc : locale.

Lemma blanks_continue (ws s : list wchar_t) :
  ws <> [] -> forallb (blank loc) ws = true ->
  ends_lexeme loc (ws ++ s) = true /\ continues loc (ws ++ s) = true.
Proof.
  destruct ws as [|c ws]; [easy|]. intros _.
  cbn [forallb app ends_lexeme continues]. rewrite andb_true_iff.
  intros [-> _]. now rewrite orb_true_r.
Qed.

Lemma resumes_at_continues (g : tok_state) (tl : list wchar_t) :
  continues loc tl = true -> resumes_at loc g tl ->
  EndOfInput g = false /\ wcin g = tl.
Proof. intros C [R|[_ R]]; [exact R|congruence]. Qed.

(** The loop takes the expression lexeme by lexeme and leaves the value
    of its conversions on top of the stack. *)
Lemma loop_written (e : expr) (text : wstring) :
  written loc e text ->
  forall x : float,
    denote loc e = Some x ->
    forall (lead tl : list wchar_t) (m : machine),
      forallb (blank loc) lead = true ->
      ends_lexeme loc tl = true ->
      EndOfInput (io m) = false ->
      wcin (io m) = lead ++ text ++ tl ->
      exists (k : nat) (g : tok_state),
        resumes_at loc g tl /\
        forall fuel,
          loop loc false (k + fuel) m
          = loop loc false fuel (with_mem (with_io m g) (mem m ++ [x])).
Proof.
  induction 1 as [n W|o a b ta tb ws1 ws2 Ha IHa Hb IHb N1 B1 N2 B2];
    intros x V lead tl m Hl Htl E I.
  - destruct (loop_numeral loc m lead n x tl Hl W V Htl E I) as (g & R & H).
    exists 1%nat, g. split; [exact R|exact H].
  - cbn [denote] in V.
    destruct (denote loc a) as [xa|]; [|discriminate V].
    destruct (denote loc b) as [xb|]; [|discriminate V].
    rewrite <- !app_assoc in I. cbn [app] in I.
    destruct (blanks_continue ws1 (tb ++ ws2 ++ binop_char o :: tl) N1 B1)
      as [L1 C1].
    destruct (blanks_continue ws2 (binop_char o :: tl) N2 B2) as [L2 C2].
    destruct (IHa xa eq_refl lead _ m Hl L1 E I) as (ka & ga & Ra & Ka).
    apply (resumes_at_continues _ _ C1) in Ra. destruct Ra as [Ea Ia].
    destruct (IHb xb eq_refl ws1 (ws2 ++ binop_char o :: tl)
                (with_mem (with_io m ga) (mem m ++ [xa])) B1 L2 Ea Ia)
      as (kb & gb & Rb & Kb).
    apply (resumes_at_continues _ _ C2) in Rb. destruct Rb as [Eb Ib].
    destruct (loop_binop loc
                (with_mem (with_io (with_mem (with_io m ga) (mem m ++ [xa])) gb)
                   ((mem m ++ [xa]) ++ [xb]))
                ws2 o (mem m) xa xb tl B2 Htl Eb Ib)
      as (g & R & K).
    { cbn [with_mem mem]. now rewrite <- app_assoc. }
    exists (ka + (kb + 1))%nat, g. split; [exact R|]. intros fuel.
    replace (ka + (kb + 1) + fuel)%nat with (ka + (kb + S fuel))%nat by lia.
    rewrite Ka, Kb, K.
    destruct o.
    + inversion V; subst. reflexivity.
    + inversion V; subst. reflexivity.
    + inversion V; subst. reflexivity.
    + destruct (PrimFloat.eqb xb 0); [discriminate V|].
      inversion V; subst. reflexivity.
Qed.

(** The run without the verbose flag on a written expression. *)
Lemma main_written_calm (e : expr) (text : wstring) (x : float)
      (lead tl : list wchar_t) :
  written loc e text -> denote loc e = Some x ->
  forallb (blank loc) lead = true -> closing loc tl = true ->
  exists g,
    main loc false (lead ++ text ++ tl)
    = (Finished,
       {| io := g; mem := []; wcout := [SayValue x]; wcerr := [] |}).
Proof.
  intros W V Hl C.
  set (input := lead ++ text ++ tl).
  destruct (loop_written e text W x V lead tl (start input) Hl
              (closing_ends_lexeme _ _ C) eq_refl eq_refl)
    as (k & g & R & H).
  assert (F : exists k' g',
             loop loc false k' (start input)
             = (Finished, with_mem (with_io (start input) g') [x])).
  { destruct R as [[E I]|[E _]].
    - destruct (loop_closing loc false 0
                  (with_mem (with_io (start input) g) ([] ++ [x])))
        as (g' & H'); [exact E|cbn [with_mem with_io io]; now rewrite I|].
      exists (k + 1)%nat, g'. rewrite H. exact H'.
    - exists (k + 0)%nat, g. rewrite H. now apply loop_finished. }
  destruct F as (k' & g' & F).
  assert (T : loop loc false (S (List.length input)) (start input)
              = (Finished, with_mem (with_io (start input) g') [x])).
  { pose proof (loop_more_fuel loc false k' (start input)) as A1.
    rewrite F in A1.
    specialize (A1 ltac:(discriminate) (S (List.length input))).
    assert (A2 : loop loc false (k' + S (List.length input)) (start input)
                 = loop loc false (S (List.length input)) (start input)).
    { apply loop_more_fuel, loop_enough_fuel.
      right. apply Nat.lt_succ_diag_r. }
    rewrite <- A2, Nat.add_comm. exact A1. }
  exists g'. unfold main, try_block. fold input. rewrite T. reflexivity.
Qed.

(** The postfix form with single spaces is one way of writing. *)
Lemma postfix_text_written (e : expr) :
  isspace loc SPACE = true -> well_formed loc e = true ->
  written loc e (postfix_text e).
Proof.
  intros Hsp. induction e as [n|o a IHa b IHb]; intros W.
  - now constructor.
  - cbn [well_formed] in W. apply andb_true_iff in W. destruct W as [Wa Wb].
    change (postfix_text (Bin o a b))
      with (postfix_text a ++ [SPACE] ++ postfix_text b ++ [SPACE]
              ++ [binop_char o]).
    constructor; try (now apply IHa); try (now apply IHb);
      try discriminate; cbn [forallb]; now rewrite (blank_space loc Hsp).
Qed.

End Written.

(** C1: in the classic locale, which the program runs in, a well-formed
    expression written in postfix form with any white space between its
    lexemes, followed by the terminator or the end of the stream, runs to
    the end without exception or warning, prints the value of the
    expression and leaves the stack empty after the final pop. The value
    is that of the numbers the numerals spell, each as the nearest
    [double], combined by [n1 + n2], [n1 - n2], [n1 * n2], [n1 / n2] in
    [double] arithmetic, the right operand being the one popped first.
    Numerals beyond the range of [double] are left out: the program
    stores the largest finite [double] for them, so that
    [10^400 / 10^399] prints 1. ["5 1 2 + 4 * + 3 -;"] prints 14 and
    ["1.5 2.5 +;"] prints 4. *)
Theorem C1_balanced_expression_evaluates :
  (forall (v : bool) (e : expr) (text : wstring) (x : float)
          (lead tl : list wchar_t),
      written classic e text ->
      value e = Some x ->
      forallb (blank classic) lead = true ->
      closing classic tl = true ->
      let r := main classic v (lead ++ text ++ tl) in
      fst r = Finished /\
      filter is_value (wcout (snd r)) = [SayValue x] /\
      mem (snd r) = [] /\
      wcerr (snd r) = []) /\
  (forall n : numeral,
      well_formed_numeral classic n = true ->
      ex_value (extract classic (numeral_text n))
      = if numeral_finite n then numeral_double n
        else if numeral_negative n then (- DBL_MAX)%float else DBL_MAX) /\
  (forall n1 n2 : float,
      arith (wstring1 PLUS) n1 n2 = (n1 + n2)%float /\
      arith (wstring1 MINUS) n1 n2 = (n1 - n2)%float /\
      arith (wstring1 MULT) n1 n2 = (n1 * n2)%float /\
      arith (wstring1 DIV) n1 n2 = (n1 / n2)%float) /\
  (forall v : bool,
      let run (input : wstring) :=
        (fst (main classic v input),
         filter is_value (wcout (snd (main classic v input))),
         mem (snd (main classic v input)),
         wcerr (snd (main classic v input))) in
      run (L "5 1 2 + 4 * + 3 -;") = (Finished, [SayValue 14], [], []) /\
      run (L "1.5 2.5 +;") = (Finished, [SayValue 4], [], []) /\
      run (sum_example_text ++ L " ;") = (Finished, [SayValue 4], [], []) /\
      run (L "0.1 0.2 +;")
      = (Finished, [SayValue 0x1.3333333333334p-2], [], []) /\
      run (postfix_text beyond_range ++ L ";")
      = (Finished, [SayValue 1], [], [])) /\
  value rpn_example = Some 14%float /\
  value sum_example = Some 4%float /\
  value (Num {| num_sign := Some MINUS; num_whole := L "0";
                num_fraction := Some (L "1") |})
  = Some (- 0x1.999999999999ap-4)%float /\
  value beyond_range = None.
Proof.
  split; [|split; [|split; [|split]]].
  - intros v e text x lead tl W V Hl C r.
    pose proof (written_well_formed _ _ _ W) as Wf.
    destruct (main_written_calm classic e text x lead tl W
                (value_denote e x Wf V) Hl C) as (g & M).
    destruct v; subst r; [|rewrite M; repeat split].
    unfold main in *.
    change (start (lead ++ text ++ tl))
      with (quiet (start (lead ++ text ++ tl))) in M.
    rewrite try_block_quiet in M.
    destruct (try_block classic true _ _) as [st m]. cbn [fst snd] in *.
    inversion M as [[Hst Hio Hmem Hout Herr]]. repeat split.
    now destruct (wcerr m).
  - intros n W. cbn [classic extract].
    now rewrite (classic_extract_numeral n W).
  - intros n1 n2. repeat split.
  - intros [|]; vm_compute; repeat split.
  - vm_compute. repeat split.
Qed.

Lemma C1_witness :
  written classic sum_example sum_example_text /\
  value sum_example = Some 4%float /\
  let r := main classic false ([] ++ sum_example_text ++ L " ;") in
  fst r = Finished /\
  filter is_value (wcout (snd r)) = [SayValue 4] /\
  mem (snd r) = [] /\
  wcerr (snd r) = [].
Proof.
  assert (W : written classic sum_example sum_example_text).
  { apply (written_bin classic Add (Num one_and_a_half) (Num two_and_a_half)
             (numeral_text one_and_a_half) (numeral_text two_and_a_half)
             [9; 32] [32; 32]);
      try (apply written_num; reflexivity);
      try discriminate; reflexivity. }
  split; [exact W|]. split; [vm_compute; reflexivity|].
  apply (proj1 C1_balanced_expression_evaluates false sum_example
           sum_example_text 4%float [] (L " ;") W);
    vm_compute; reflexivity.
Defined.
